(** * PAL utility collection: inline bit helpers and debug-print routing

    A shallow embedding of [inc/util/palInlineFuncs.h] and of the
    declarations of [inc/util/palDbgPrint.h], followed by the properties
    established about them.

    Conventions of the embedding.
    - A value of an unsigned [w]-bit C++ type is a [Z] in [0, 2^w); every
      conversion to such a type is written out with [wrap w].
    - A C++ array [T (&a)[N]] is a [list Z] of length [N]; an access outside
      the array has no defined behaviour and is the result [None].
    - A loop that the source does not bound carries a [fuel] argument and
      answers [None] when the fuel runs out; a loop that always ends is a
      total function. *)

From Stdlib Require Import ZArith Lia List Bool String.
From stdpp Require Import base option list gmap.
From Equations Require Import Equations.

Local Open Scope Z_scope.

(** ** Machine integers *)

(** Conversion to an unsigned [w]-bit type keeps the low [w] bits. *)
Definition wrap (w x : Z) : Z := x mod 2 ^ w.

Definition to_uint32 (x : Z) : Z := wrap 32 x.
Definition to_uint64 (x : Z) : Z := wrap 64 x.

(** The compilation target.  [1 << n] is evaluated in [int]; for a count
    [n >= 32] the language assigns it no value, and [int_shl1_wide n] stands
    for whatever the compiled code yields there. *)
Class Target := { int_shl1_wide : Z -> Z }.

(** x86 and x86-64: the shift instruction keeps the low five bits of the
    count. *)
Definition x86_target : Target := {| int_shl1_wide n := Z.shiftl 1 (n mod 32) |}.

(** [1 << n] with both operands promoted as in the source: the left operand
    is the [int] literal 1. *)
Definition int_shl1 `{Target} (n : Z) : Z :=
  if n <? 32 then Z.shiftl 1 n else int_shl1_wide n.

(** [__builtin_ffs]: one plus the index of the least-significant set bit of
    the 32-bit pattern [x], and 0 when [x] is 0. *)
Fixpoint ffs_pos (p : positive) : Z :=
  match p with
  | xO q => 1 + ffs_pos q
  | _ => 1
  end.

Definition builtin_ffs (x : Z) : Z :=
  match x with
  | Zpos p => ffs_pos p
  | _ => 0
  end.

Module Util.

(** ** Wide bitfields

    [W] is [sizeof(T) << 3], the width in bits of one word of the array. *)

Section WideBitfield.
Context `{Target}.

(** [const uint32 mask = (1 << (bit & ((sizeof(T) << 3) - 1)));] *)
Definition bit_mask (W bit : Z) : Z :=
  to_uint32 (int_shl1 (Z.land bit (W - 1))).

(** [const uint32 index = (bit / (sizeof(T) << 3));] *)
Definition word_index (W bit : Z) : Z := to_uint32 (bit / W).

Definition WideBitfieldIsSet (W : Z) (bitfield : list Z) (bit : Z) : option bool :=
  let index := word_index W bit in
  let mask := bit_mask W bit in
  w ← bitfield !! Z.to_nat index;
  Some (negb (0 =? Z.land w mask)).

Definition WideBitfieldSetBit (W : Z) (bitfield : list Z) (bit : Z) : option (list Z) :=
  let index := word_index W bit in
  let mask := bit_mask W bit in
  w ← bitfield !! Z.to_nat index;
  Some (<[Z.to_nat index := wrap W (Z.lor w mask)]> bitfield).

(** [~mask] is computed in [uint32] before it meets the word. *)
Definition WideBitfieldClearBit (W : Z) (bitfield : list Z) (bit : Z) : option (list Z) :=
  let index := word_index W bit in
  let mask := bit_mask W bit in
  w ← bitfield !! Z.to_nat index;
  Some (<[Z.to_nat index := wrap W (Z.land w (to_uint32 (Z.lnot mask)))]> bitfield).
End WideBitfield.

(** ** Powers of two and alignment *)

(** [value] is a [uint64]. *)
Definition IsPowerOfTwo (value : Z) : bool :=
  if value =? 0 then false else Z.land value (to_uint64 (value - 1)) =? 0.

(** [Pow2Align<T>] for an unsigned [T] of [w] bits; [alignment] is a
    [uint64] and is converted to [T].  The assertion on [alignment] is a
    precondition: it is absent from release builds. *)
Definition Pow2Align (w value alignment : Z) : Z :=
  let a := wrap w alignment in
  Z.land (wrap w (wrap w (value + a) - 1)) (wrap w (Z.lnot (wrap w (a - 1)))).

(** [RoundUpQuotient<T>]; a zero divisor has no defined result. *)
Definition RoundUpQuotient (w dividend divisor : Z) : option Z :=
  if divisor =? 0 then None
  else Some (wrap w (dividend + wrap w (divisor - 1)) / divisor).

(** [Pow2Pad<T>]: the loop [while (ret < value) ret <<= 1;]. *)
Fixpoint Pow2Pad_loop (fuel : nat) (w value ret : Z) : option Z :=
  if ret <? value then
    match fuel with
    | O => None
    | S fuel' => Pow2Pad_loop fuel' w value (wrap w (Z.shiftl ret 1))
    end
  else Some ret.

Definition Pow2Pad (fuel : nat) (w value : Z) : option Z :=
  if IsPowerOfTwo value then Some value else Pow2Pad_loop fuel w value 1.

(** [Log2<T>]: the loop [while (u > 1) { ++logValue; u >>= 1; }]. *)
Equations? Log2_loop (u logValue : Z) : Z by wf (Z.to_nat u) lt :=
  Log2_loop u logValue with Z_lt_dec 1 u => {
    | left _ => Log2_loop (Z.shiftr u 1) (to_uint32 (logValue + 1));
    | right _ => logValue }.
Proof.
  rewrite Z.shiftr_div_pow2 by lia.
  change (2 ^ 1) with 2.
  assert (u / 2 < u) by (apply Z.div_lt; lia).
  assert (0 <= u / 2) by (apply Z.div_pos; lia).
  lia.
Qed.

Definition Log2 (u : Z) : Z := Log2_loop u 0.

(** ** Scanning a wide bit-mask *)

(** [while ((mask[index] == 0) && (++index < N));] and the value of [index]
    it leaves. *)
Fixpoint first_nonzero_loop (fuel : nat) (N : Z) (mask : list Z) (index : Z) : option Z :=
  match fuel with
  | O => None
  | S fuel' =>
      w ← mask !! Z.to_nat index;
      if w =? 0 then
        let index' := to_uint32 (index + 1) in
        if index' <? N then first_nonzero_loop fuel' N mask index' else Some index'
      else Some index
  end.

(** The loop [while (result == true)], entered with [result] true.  The
    pair is the returned [result] and the final [*pIndex].  The word is
    handed to [__builtin_ffs] as an [int], that is through its low 32
    bits. *)
Fixpoint scan_loop (fuel : nat) (W N : Z) (mask : list Z) (maskIndex : Z) : option (bool * Z) :=
  match fuel with
  | O => None
  | S fuel' =>
      w ← mask !! Z.to_nat maskIndex;
      let indexPlusOne := builtin_ffs (to_uint32 w) in
      if indexPlusOne =? 0 then
        let maskIndex' := to_uint32 (maskIndex + 1) in
        if maskIndex' <? N then scan_loop fuel' W N mask maskIndex'
        else Some (false, 0)
      else Some (true, to_uint32 ((indexPlusOne - 1) + maskIndex * W))
  end.

Definition WideBitMaskScanForward (W : Z) (mask : list Z) (pIndex : Z) : option (bool * Z) :=
  let N := Z.of_nat (length mask) in
  let maskIndex := to_uint32 (pIndex / W) in
  index ← first_nonzero_loop (length mask) N mask 0;
  if index <? N then scan_loop (length mask) W N mask maskIndex
  else Some (false, pIndex).

(** [NumBytesToNumDwords]: [Pow2Align<uint32>] followed by a division by
    [sizeof(uint32)]. *)
Definition NumBytesToNumDwords (numBytes : Z) : Z :=
  to_uint32 (Pow2Align 32 numBytes 4 / 4).

(** ** String hashing *)

Definition fnvPrime : Z := 16777619.
Definition fnvOffset : Z := 2166136261.

(** [pStr] holds the values of the [char] objects: in [-128, 127] where
    [char] is signed (x86, x86-64), in [0, 255] where it is unsigned.
    [static_cast<uint32>] of a [char] is its value modulo 2^32.  The counter
    [i] is a [uint32] compared with the [size_t] [strSize]. *)
Fixpoint HashString_loop (fuel : nat) (pStr : list Z) (strSize i hash : Z) : option Z :=
  if i <? strSize then
    match fuel with
    | O => None
    | S fuel' =>
        c ← pStr !! Z.to_nat i;
        let hash := Z.lxor hash (to_uint32 c) in
        let hash := to_uint32 (hash * fnvPrime) in
        HashString_loop fuel' pStr strSize (to_uint32 (i + 1)) hash
    end
  else Some hash.

Definition HashString (fuel : nat) (pStr : list Z) (strSize : Z) : option Z :=
  HashString_loop fuel pStr strSize 0 fnvOffset.

(** ** Population count *)

Definition CountSetBits (value : Z) : Z :=
  let x := value in
  let x := to_uint32 (x - Z.land (Z.shiftr x 1) 0x55555555) in
  let x := to_uint32 (Z.land x 0x33333333 + Z.land (Z.shiftr x 2) 0x33333333) in
  let x := Z.shiftr (to_uint32 (Z.land (to_uint32 (x + Z.shiftr x 4)) 0x0F0F0F0F * 0x01010101)) 24 in
  x.

(** ** Flag tests *)

Definition TestAnyFlagSet (src test : Z) : bool := negb (Z.land src test =? 0).

Definition TestAllFlagsSet (src test : Z) : bool := Z.land src test =? test.

(** ** More alignment helpers

    In the functions that divide, [w] is 32 or 64: a narrower [T] would be
    promoted to [int] before the division. *)

(** Both arguments are [uint64]. *)
Definition IsPow2Aligned (value alignment : Z) : bool :=
  Z.land value (to_uint64 (alignment - 1)) =? 0.

Definition RoundUpToMultiple (w operand alignment : Z) : option Z :=
  if alignment =? 0 then None
  else Some (wrap w (wrap w (operand + wrap w (alignment - 1)) / alignment * alignment)).

Definition RoundDownToMultiple (w operand alignment : Z) : option Z :=
  if alignment =? 0 then None
  else Some (wrap w (operand / alignment * alignment)).

(** [Pow2AlignDown<T>]: [alignment] is not converted to [T] here, the
    mask is computed in [uint64] and the result is converted back. *)
Definition Pow2AlignDown (w value alignment : Z) : Z :=
  wrap w (Z.land value (to_uint64 (Z.lnot (to_uint64 (alignment - 1))))).

(** ** Ordering helpers

    [Max], [Min] and [Clamp] are templates over any type with [<] and
    [>]: [less] is the [<] of the type, and [a > b] is [less b a], as it
    is for every arithmetic type. *)
Class Less (T : Type) := less : T -> T -> bool.

(** The types on which [<] is a strict total order: the integer types,
    but not a floating-point type, whose NaN is neither below, above nor
    equal to anything. *)
Class StrictTotalOrder (T : Type) `{Less T} : Prop := {
  less_irreflexive : forall a : T, less a a = false;
  less_transitive : forall a b c : T, less a b = true -> less b c = true -> less a c = true;
  less_total : forall a b : T, less a b = false -> less b a = false -> a = b
}.

#[global] Instance Z_less : Less Z := Z.ltb.

Section OrderingHelpers.
Context {T : Type} `{Less T}.

Definition Max (value1 value2 : T) : T := if less value2 value1 then value1 else value2.

Definition Min (value1 value2 : T) : T := if less value1 value2 then value1 else value2.

Definition Clamp (input lowBound highBound : T) : T :=
  if less input lowBound then lowBound
  else if less highBound input then highBound
  else input.
End OrderingHelpers.

(** ** Ceiling logarithm

    [0x1ul << logValue] is evaluated in [unsigned long], of [L] bits (64
    on LP64 targets, 32 elsewhere); a shift count that reaches [L] has no
    defined result. *)
Fixpoint CeilLog2_loop (fuel : nat) (L u logValue : Z) : option Z :=
  if logValue <? L then
    if wrap L (Z.shiftl 1 logValue) <? u then
      match fuel with
      | O => None
      | S fuel' => CeilLog2_loop fuel' L u (to_uint32 (logValue + 1))
      end
    else Some logValue
  else None.

Definition CeilLog2 (fuel : nat) (L u : Z) : option Z := CeilLog2_loop fuel L u 0.

(** ** Scanning one word, and the halves of a 64-bit value *)

(** The pair is the returned [result] and the final [*pIndex]. *)
Definition BitMaskScanForward (mask : Z) : bool * Z :=
  let indexPlusOne := builtin_ffs (to_uint32 mask) in
  if indexPlusOne =? 0 then (false, 0) else (true, to_uint32 (indexPlusOne - 1)).

Definition HighPart (value : Z) : Z :=
  to_uint32 (Z.shiftr (Z.land value 0xFFFFFFFF00000000) 32).

Definition LowPart (value : Z) : Z := to_uint32 (Z.land value 0x00000000FFFFFFFF).

(** ** Combining two wide bitfields

    The three arrays are named by their addresses in a store, so that
    [pOut] can be one of the inputs.  [op] is [^] or [&]; the result of the
    operator is converted to the word type. *)
Definition wide_combine_step (op : Z -> Z -> Z) (W : Z) (bitfield1 bitfield2 pOut : nat)
    (i : Z) (m : gmap nat (list Z)) : option (gmap nat (list Z)) :=
  a ← m !! bitfield1;
  x ← a !! Z.to_nat i;
  b ← m !! bitfield2;
  y ← b !! Z.to_nat i;
  out ← m !! pOut;
  if (Z.to_nat i <? length out)%nat
  then Some (<[pOut := <[Z.to_nat i := wrap W (op x y)]> out]> m)
  else None.

(** [for (uint32 i = 0; i < N; i++) pOut[i] = (bitfield1[i] op bitfield2[i]);] *)
Fixpoint wide_combine_loop (fuel : nat) (op : Z -> Z -> Z) (W N : Z)
    (bitfield1 bitfield2 pOut : nat) (i : Z) (m : gmap nat (list Z))
    : option (gmap nat (list Z)) :=
  if i <? N then
    match fuel with
    | O => None
    | S fuel' =>
        m' ← wide_combine_step op W bitfield1 bitfield2 pOut i m;
        wide_combine_loop fuel' op W N bitfield1 bitfield2 pOut (to_uint32 (i + 1)) m'
    end
  else Some m.

Definition WideBitfieldXorBits (fuel : nat) (W N : Z) (bitfield1 bitfield2 pOut : nat)
    (m : gmap nat (list Z)) : option (gmap nat (list Z)) :=
  wide_combine_loop fuel Z.lxor W N bitfield1 bitfield2 pOut 0 m.

Definition WideBitfieldAndBits (fuel : nat) (W N : Z) (bitfield1 bitfield2 pOut : nat)
    (m : gmap nat (list Z)) : option (gmap nat (list Z)) :=
  wide_combine_loop fuel Z.land W N bitfield1 bitfield2 pOut 0 m.

(** ** Pointer alignment

    The pointer is cast to [size_t], of [P] bits, and aligned as an
    integer. *)
Definition VoidPtrAlign (P ptr alignment : Z) : Z :=
  Z.land (wrap P (ptr + wrap P (alignment - 1))) (wrap P (Z.lnot (wrap P (alignment - 1)))).

End Util.

(** ** Debug-print routing

    [palDbgPrint.h] declares the categories, modes, styles, the callback
    structure and the entry points; the bodies of the entry points are in a
    source file that is not part of this collection. *)

Module DbgPrint.

Inductive DbgPrintCategory : Set :=
| DbgPrintCatInfoMsg
| DbgPrintCatWarnMsg
| DbgPrintCatErrorMsg
| DbgPrintCatScMsg.

Inductive DbgPrintMode : Set :=
| Disable
| Print
| File.

Definition DbgPrintStyleNoPrefix : Z := 0x1.
Definition DbgPrintStyleNoCrLf : Z := 0x2.

(** [pCallbackFunc] is an address, 0 for [nullptr]. *)
Record DbgPrintCallback : Set := {
  pCallbackFunc : Z;
  pUserdata : Z
}.


(** What a call can put out: a call of the installed callback, text on the
    default diagnostic output, text in the log file of a category. *)
Inductive Output : Set :=
| CallbackCall (func userdata : Z) (category : DbgPrintCategory) (text : string)
| DebugOutput (text : string)
| FileWrite (category : DbgPrintCategory) (text : string).

(** Modelled from the spec: the process-wide state of the subsystem,
    whose definition is not among the sources: the mode of every category,
    the installed callback and, for the properties, the outputs so far. *)
Record DbgPrintState : Type := {
  dbgPrintTable : DbgPrintCategory -> DbgPrintMode;
  dbgPrintCallback : DbgPrintCallback;
  outputs : list Output
}.

Definition category_eqb (a b : DbgPrintCategory) : bool :=
  match a, b with
  | DbgPrintCatInfoMsg, DbgPrintCatInfoMsg
  | DbgPrintCatWarnMsg, DbgPrintCatWarnMsg
  | DbgPrintCatErrorMsg, DbgPrintCatErrorMsg
  | DbgPrintCatScMsg, DbgPrintCatScMsg => true
  | _, _ => false
  end.

(** Modelled from the spec: the body of [SetDbgPrintMode], an explicit
    transition of one category to the given mode. *)
Definition SetDbgPrintMode (st : DbgPrintState) (category : DbgPrintCategory)
    (mode : DbgPrintMode) : DbgPrintState :=
  {| dbgPrintTable := fun c => if category_eqb c category then mode else dbgPrintTable st c;
     dbgPrintCallback := dbgPrintCallback st;
     outputs := outputs st |}.

(** Modelled from the spec: the body of [SetDbgPrintCallback], which
    installs the callback, or clears it when the function pointer is null. *)
Definition SetDbgPrintCallback (st : DbgPrintState) (callback : DbgPrintCallback)
    : DbgPrintState :=
  {| dbgPrintTable := dbgPrintTable st;
     dbgPrintCallback := callback;
     outputs := outputs st |}.

Section Printing.
Context `{Formatting}.



End Printing.






End DbgPrint.

(** ** Reference definitions

    The properties below compare the code with these, which follow the
    words of the specification. *)

(** The naive population count: the number of positions [i] in [0, n)
    with bit [i] of [x] set. *)
Fixpoint naive_popcount_upto (n : nat) (x : Z) : Z :=
  match n with
  | O => 0
  | S i => naive_popcount_upto i x + Z.b2z (Z.testbit x (Z.of_nat i))
  end.

Definition naive_popcount (x : Z) : Z := naive_popcount_upto 32 x.

(** The 32-bit FNV-1a reference hash of a sequence of bytes. *)
Definition fnv1a_step (hash byte : Z) : Z := (Z.lxor hash byte * 16777619) mod 2 ^ 32.

Definition fnv1a_reference (bytes : list Z) : Z := fold_left fnv1a_step bytes 2166136261.

(** The byte, in [0, 255], that a [char] of value [c] holds. *)
Definition char_byte (c : Z) : Z := c mod 256.


(** Bit [b] of a wide bitfield of [W]-bit words: bit [b mod W] of word
    [b / W]. *)
Definition wide_testbit (W : Z) (bitfield : list Z) (b : Z) : bool :=
  match bitfield !! Z.to_nat (b / W) with
  | Some w => Z.testbit w (b mod W)
  | None => false
  end.

(** ** Bytes of a word

    The population count is followed byte by byte: [pack] puts a word
    together from its bytes, least significant first, and [unpack] takes
    the [n] low bytes of a word apart. *)

Fixpoint pack (bs : list Z) : Z :=
  match bs with
  | [] => 0
  | b :: bs' => pack bs' * 256 + b
  end.

Fixpoint unpack (n : nat) (x : Z) : list Z :=
  match n with
  | O => []
  | S n' => x mod 256 :: unpack n' (x / 256)
  end.

Definition is_byte (b : Z) : Prop := 0 <= b < 256.

Definition byte_values : list Z := map Z.of_nat (seq 0 256).

(** What the three steps of [CountSetBits] do inside one byte: counts of
    the pairs of bits, then of the nibbles, then of the byte. *)
Definition pair_counts (b : Z) : Z := b - Z.land (Z.shiftr b 1) 0x55.

Definition nibble_counts (c : Z) : Z := Z.land c 0x33 + Z.land (Z.shiftr c 2) 0x33.

Definition byte_count (d : Z) : Z := Z.land (d + Z.shiftr d 4) 0x0F.

(** A byte made of two nibble counts: neither nibble exceeds 4. *)
Definition nibbles_counted (d : Z) : Prop :=
  0 <= d /\ d mod 16 <= 4 /\ d / 16 <= 4.

Import Util.

(** * Properties *)

(** ** Facts about [wrap] *)

Lemma wrap_range w x : 0 <= w -> 0 <= wrap w x < 2 ^ w.
Proof. intros Hw. unfold wrap. apply Z.mod_pos_bound. apply Z.pow_pos_nonneg; lia. Qed.

Lemma wrap_small w x : 0 <= x < 2 ^ w -> wrap w x = x.
Proof. intros Hx. unfold wrap. apply Z.mod_small. exact Hx. Qed.

Lemma wrap_land_ones w x : 0 <= w -> wrap w x = Z.land x (Z.ones w).
Proof. intros Hw. unfold wrap. symmetry. apply Z.land_ones. exact Hw. Qed.

(** ** [Log2] *)

Section Log2Properties.

Lemma Log2_loop_spec u acc :
  1 <= u -> 0 <= acc -> acc + Z.log2 u < 2 ^ 32 ->
  Log2_loop u acc = acc + Z.log2 u.
Proof.
  funelim (Log2_loop u acc); intros Hu Hacc Hbound.
  - assert (Hhalf : Z.shiftr u 1 = u / 2)
      by (rewrite Z.shiftr_div_pow2 by lia; reflexivity).
    assert (Hlog : Z.log2 u = Z.log2 (u / 2) + 1).
    { rewrite <- Hhalf, Z.log2_shiftr by lia.
      assert (1 <= Z.log2 u) by (apply Z.log2_le_pow2; simpl; lia).
      lia. }
    assert (1 <= u / 2) by (apply Z.div_le_lower_bound; lia).
    rewrite Hhalf in *.
    match goal with
    | IH : _ -> _ -> _ -> Log2_loop _ _ = _ |- _ => rewrite IH
    end; unfold to_uint32; rewrite ?wrap_small; try lia.
    all: pose proof (Z.log2_nonneg (u / 2)); lia.
  - assert (u = 1) by lia. subst u. simpl. lia.
Qed.

Lemma Log2_loop_below_2 u acc : u <= 1 -> Log2_loop u acc = acc.
Proof. intros Hu. simp Log2_loop. destruct (Z_lt_dec 1 u); [lia | reflexivity]. Qed.

Lemma Log2_eq_log2 u : 1 <= u < 2 ^ 64 -> Log2 u = Z.log2 u.
Proof.
  intros [Hlo Hhi]. unfold Log2. rewrite Log2_loop_spec; try lia.
  assert (Z.log2 u < 64) by (apply Z.log2_lt_pow2; lia). lia.
Qed.

(** C8. For every unsigned [u >= 1] (of a type of at most 64 bits)
    [Log2 u] is the floor of the base-2 logarithm of [u], that is the [k]
    with [2^k <= u < 2^(k+1)]; [Log2 1] is 0 and so is [Log2 0]. *)
Theorem Log2_floor_log2 :
  (forall u, 1 <= u < 2 ^ 64 ->
     0 <= Log2 u /\ 2 ^ Log2 u <= u < 2 ^ (Log2 u + 1)) /\
  Log2 1 = 0 /\ Log2 0 = 0.
Proof.
  split; [| split; apply Log2_loop_below_2; lia].
  intros u Hu. rewrite (Log2_eq_log2 u Hu).
  split; [apply Z.log2_nonneg |].
  replace (Z.log2 u + 1) with (Z.succ (Z.log2 u)) by lia.
  apply Z.log2_spec. lia.
Qed.

Lemma Log2_floor_log2_witness :
  1 <= 1000 < 2 ^ 64 /\ 2 ^ Log2 1000 <= 1000 < 2 ^ (Log2 1000 + 1).
Proof.
  assert (Hu : 1 <= 1000 < 2 ^ 64) by (split; [lia | reflexivity]).
  split; [exact Hu |].
  exact (proj2 (proj1 Log2_floor_log2 1000 Hu)).
Defined.

End Log2Properties.

(** ** Powers of two *)

Section PowersOfTwo.

(** What [IsPowerOfTwo] answers on a [uint64]. *)
Lemma IsPowerOfTwo_sound a :
  0 <= a < 2 ^ 64 -> IsPowerOfTwo a = true -> exists k, 0 <= k < 64 /\ a = 2 ^ k.
Proof.
  intros Ha Hp. unfold IsPowerOfTwo in Hp.
  destruct (Z.eqb_spec a 0) as [| Hnz]; [discriminate |].
  apply Z.eqb_eq in Hp.
  unfold to_uint64 in Hp. rewrite wrap_small in Hp by lia.
  assert (Hpos : 0 < a) by lia.
  pose proof (Z.log2_spec a Hpos) as Hlog.
  pose proof (Z.log2_nonneg a) as Hk.
  exists (Z.log2 a). split.
  - split; [exact Hk |]. apply Z.log2_lt_pow2; lia.
  - destruct (Z.eq_dec a (2 ^ Z.log2 a)) as [| Hne]; [assumption | exfalso].
    assert (Hbit : Z.testbit a (Z.log2 a) = true) by (apply Z.bit_log2; lia).
    assert (Hlog' : Z.log2 (a - 1) = Z.log2 a).
    { apply Z.log2_unique; [exact Hk |].
      replace (Z.log2 a + 1) with (Z.succ (Z.log2 a)) by lia. lia. }
    assert (Hbit' : Z.testbit (a - 1) (Z.log2 a) = true).
    { rewrite <- Hlog'. apply Z.bit_log2.
      assert (0 < 2 ^ Z.log2 a) by (apply Z.pow_pos_nonneg; lia). lia. }
    apply (f_equal (fun z => Z.testbit z (Z.log2 a))) in Hp.
    rewrite Z.land_spec, Hbit, Hbit', Z.bits_0 in Hp. discriminate.
Qed.

Lemma IsPowerOfTwo_complete k : 0 <= k < 64 -> IsPowerOfTwo (2 ^ k) = true.
Proof.
  intros Hk. unfold IsPowerOfTwo.
  assert (0 < 2 ^ k) by (apply Z.pow_pos_nonneg; lia).
  assert (2 ^ k < 2 ^ 64) by (apply Z.pow_lt_mono_r; lia).
  destruct (Z.eqb_spec (2 ^ k) 0); [lia |].
  unfold to_uint64. rewrite wrap_small by lia.
  apply Z.eqb_eq.
  replace (2 ^ k - 1) with (Z.ones k) by (rewrite Z.ones_equiv; lia).
  rewrite Z.land_ones by lia. apply Z.mod_same. lia.
Qed.

End PowersOfTwo.

(** ** [Pow2Align], [RoundUpQuotient] and [NumBytesToNumDwords] *)

Section Alignment.

(** Clearing the low [k] bits of a [w]-bit value. *)
Lemma land_low_mask w k x :
  0 <= k < w -> 0 <= x < 2 ^ w ->
  Z.land x (wrap w (Z.lnot (wrap w (2 ^ k - 1)))) = 2 ^ k * (x / 2 ^ k).
Proof.
  intros Hk Hx.
  assert (Hpk : 0 < 2 ^ k) by (apply Z.pow_pos_nonneg; lia).
  assert (Hlt : 2 ^ k < 2 ^ w) by (apply Z.pow_lt_mono_r; lia).
  rewrite (wrap_small w (2 ^ k - 1)) by lia.
  replace (2 ^ k - 1) with (Z.ones k) by (rewrite Z.ones_equiv; lia).
  rewrite wrap_land_ones by lia.
  rewrite (Z.land_comm (Z.lnot _)), Z.land_assoc.
  rewrite <- (wrap_land_ones w x) by lia.
  rewrite (wrap_small w x) by lia.
  rewrite <- Z.ldiff_land, Z.ldiff_ones_r by lia.
  rewrite Z.shiftl_mul_pow2, Z.shiftr_div_pow2 by lia.
  lia.
Qed.

(** The value of [Pow2Align] for an alignment that fits the type. *)
Lemma Pow2Align_small_alignment w k v :
  0 <= k < w ->
  Pow2Align w v (2 ^ k) = 2 ^ k * (wrap w (v + 2 ^ k - 1) / 2 ^ k).
Proof.
  intros Hk. unfold Pow2Align.
  assert (Hpk : 0 < 2 ^ k) by (apply Z.pow_pos_nonneg; lia).
  assert (Hlt : 2 ^ k < 2 ^ w) by (apply Z.pow_lt_mono_r; lia).
  rewrite (wrap_small w (2 ^ k)) by lia.
  assert (Hin : wrap w (wrap w (v + 2 ^ k) - 1) = wrap w (v + 2 ^ k - 1))
    by (unfold wrap; apply Zminus_mod_idemp_l).
  rewrite Hin.
  apply land_low_mask; [lia |]. apply wrap_range. lia.
Qed.

(** The value of [Pow2Align] for an alignment whose conversion to the
    type is 0. *)
Lemma Pow2Align_wide_alignment w k v :
  0 < w <= k -> Pow2Align w v (2 ^ k) = 0.
Proof.
  intros Hk. unfold Pow2Align.
  assert (Ha : wrap w (2 ^ k) = 0).
  { unfold wrap. replace k with ((k - w) + w) by lia.
    rewrite Z.pow_add_r by lia. apply Z.mod_mul.
    apply Z.pow_nonzero; lia. }
  rewrite Ha.
  assert (Hm1 : wrap w (0 - 1) = Z.ones w).
  { rewrite Z.ones_equiv. unfold wrap.
    assert (0 < 2 ^ w) by (apply Z.pow_pos_nonneg; lia).
    rewrite <- (Z.mod_small (Z.pred (2 ^ w)) (2 ^ w)) by lia.
    replace (0 - 1) with (Z.pred (2 ^ w) + (-1) * 2 ^ w) by lia.
    apply Z.mod_add. lia. }
  rewrite Hm1.
  assert (Hz : wrap w (Z.lnot (Z.ones w)) = 0).
  { rewrite wrap_land_ones by lia.
    rewrite Z.land_comm, <- Z.ldiff_land. apply Z.ldiff_diag. }
  rewrite Hz. apply Z.land_0_r.
Qed.

Lemma pow2_multiple_below w k q :
  0 <= k < w -> 2 ^ k * q < 2 ^ w -> 2 ^ k * q + 2 ^ k - 1 < 2 ^ w.
Proof.
  intros Hk Hq.
  assert (Hpk : 0 < 2 ^ k) by (apply Z.pow_pos_nonneg; lia).
  assert (Hsplit : 2 ^ w = 2 ^ k * 2 ^ (w - k)).
  { rewrite <- Z.pow_add_r by lia. f_equal. lia. }
  rewrite Hsplit in *.
  assert (q < 2 ^ (w - k)) by nia.
  nia.
Qed.

End Alignment.

Section AlignmentClaims.

(** C7, as the code has it.  For every [w]-bit value [v] and every
    power-of-two alignment [a], [Pow2Align] is idempotent and its result is
    a multiple of [a]; the result is at least [v] whenever [v + a - 1] is
    representable in the type, that is when the sum in the source does
    not wrap. *)
Theorem Pow2Align_idempotent_aligned w v a :
  0 < w <= 64 -> 0 <= v < 2 ^ w -> 0 <= a < 2 ^ 64 -> IsPowerOfTwo a = true ->
  Pow2Align w (Pow2Align w v a) a = Pow2Align w v a /\
  Pow2Align w v a mod a = 0 /\
  (v + a - 1 < 2 ^ w -> v <= Pow2Align w v a).
Proof.
  intros Hw Hv Ha Hp.
  destruct (IsPowerOfTwo_sound a Ha Hp) as (k & Hk & ->).
  assert (Hpk : 0 < 2 ^ k) by (apply Z.pow_pos_nonneg; lia).
  destruct (Z_lt_dec k w) as [Hkw | Hkw].
  - rewrite (Pow2Align_small_alignment w k v) by lia.
    set (x := wrap w (v + 2 ^ k - 1)).
    assert (Hx : 0 <= x < 2 ^ w) by (apply wrap_range; lia).
    set (q := x / 2 ^ k).
    assert (Hq : 2 ^ k * q <= x < 2 ^ k * q + 2 ^ k).
    { unfold q. pose proof (Z.mul_div_le x (2 ^ k) Hpk).
      pose proof (Z.mul_succ_div_gt x (2 ^ k) Hpk). lia. }
    assert (Hq0 : 0 <= q) by (apply Z.div_pos; lia).
    split; [| split].
    + rewrite Pow2Align_small_alignment by lia.
      pose proof (pow2_multiple_below w k q ltac:(lia) ltac:(lia)).
      rewrite wrap_small by nia.
      f_equal.
      replace (2 ^ k * q + 2 ^ k - 1) with ((2 ^ k - 1) + q * 2 ^ k) by lia.
      rewrite Z.div_add by lia.
      rewrite Z.div_small by lia. lia.
    + rewrite Z.mul_comm. apply Z.mod_mul. lia.
    + intros Hfit. unfold x in Hq. rewrite wrap_small in Hq by lia. lia.
  - rewrite !Pow2Align_wide_alignment by lia.
    split; [| split].
    + reflexivity.
    + apply Z.mod_0_l. lia.
    + intros Hfit.
      assert (2 ^ w <= 2 ^ k) by (apply Z.pow_le_mono_r; lia). lia.
Qed.

Lemma Pow2Align_idempotent_aligned_witness :
  Pow2Align 32 (Pow2Align 32 13 8) 8 = Pow2Align 32 13 8 /\
  Pow2Align 32 13 8 mod 8 = 0 /\
  (13 + 8 - 1 < 2 ^ 32 -> 13 <= Pow2Align 32 13 8).
Proof.
  apply (Pow2Align_idempotent_aligned 32 13 8).
  - lia.
  - split; [lia | reflexivity].
  - split; [lia | reflexivity].
  - reflexivity.
Defined.

(** C7 as the specification words it fails where the sum wraps: the
    largest [uint32] aligned to 4 is 0, which is below the input. *)
Lemma Pow2Align_wraps_below_input :
  IsPowerOfTwo 4 = true /\
  Pow2Align 32 4294967295 4 = 0 /\
  ~ (Pow2Align 32 4294967295 4 >= 4294967295).
Proof.
  split; [reflexivity |]. split; [reflexivity |].
  vm_compute. intros Hge. apply Hge. reflexivity.
Qed.

(** C9. For every [uint32] [numBytes], [NumBytesToNumDwords] and the
    generic ceiling division [RoundUpQuotient] by 4 return the same
    value, also where the addition in either wraps modulo 2^32. *)
Theorem NumBytesToNumDwords_is_RoundUpQuotient numBytes :
  0 <= numBytes < 2 ^ 32 ->
  RoundUpQuotient 32 numBytes 4 = Some (NumBytesToNumDwords numBytes).
Proof.
  intros Hn. unfold RoundUpQuotient, NumBytesToNumDwords. simpl (4 =? 0).
  cbv iota. f_equal.
  change 4 with (2 ^ 2) at 3.
  rewrite (Pow2Align_small_alignment 32 2 numBytes) by lia.
  change (2 ^ 2) with 4. change (4 - 1) with 3.
  rewrite (wrap_small 32 3) by (split; [lia | reflexivity]).
  replace (numBytes + 4 - 1) with (numBytes + 3) by lia.
  set (x := wrap 32 (numBytes + 3)).
  assert (Hx : 0 <= x < 2 ^ 32) by (apply wrap_range; lia).
  rewrite (Z.mul_comm 4), Z.div_mul by lia.
  unfold to_uint32. rewrite wrap_small; [reflexivity |].
  split; [apply Z.div_pos; lia |].
  apply Z.div_lt_upper_bound; lia.
Qed.

Lemma NumBytesToNumDwords_is_RoundUpQuotient_witness :
  RoundUpQuotient 32 4294967295 4 = Some (NumBytesToNumDwords 4294967295).
Proof.
  apply (NumBytesToNumDwords_is_RoundUpQuotient 4294967295).
  split; [lia | reflexivity].
Defined.

End AlignmentClaims.

(** ** [Pow2Pad] *)

Section Pow2PadProperties.

(** The loop started at [2^i] below the answer stops at the least power
    of two that reaches [value], provided one fits the type. *)
Lemma Pow2Pad_loop_spec w value fuel :
  forall i,
    0 <= i < w -> value <= 2 ^ (w - 1) ->
    (i = 0 \/ 2 ^ (i - 1) < value) ->
    w - 1 - i <= Z.of_nat fuel ->
    exists k, i <= k < w /\
      Pow2Pad_loop fuel w value (2 ^ i) = Some (2 ^ k) /\
      value <= 2 ^ k /\ (k = 0 \/ 2 ^ (k - 1) < value).
Proof.
  induction fuel as [| fuel IH]; intros i Hi Hv Hlow Hfuel.
  - assert (i = w - 1) by lia. subst i.
    exists (w - 1). simpl.
    destruct (Z.ltb_spec (2 ^ (w - 1)) value); [lia |].
    repeat split; try lia; assumption.
  - simpl. destruct (Z.ltb_spec (2 ^ i) value) as [Hlt | Hge].
    + assert (Hi' : i < w - 1).
      { destruct (Z_lt_dec i (w - 1)); [assumption |].
        assert (i = w - 1) by lia. subst i. lia. }
      assert (Hnext : wrap w (Z.shiftl (2 ^ i) 1) = 2 ^ (i + 1)).
      { rewrite Z.shiftl_mul_pow2 by lia. rewrite <- Z.pow_add_r by lia.
        apply wrap_small. split; [apply Z.pow_nonneg; lia |].
        apply Z.pow_lt_mono_r; lia. }
      rewrite Hnext.
      destruct (IH (i + 1)) as (k & Hk & Hrun & Hreach & Hleast); try lia.
      { right. replace (i + 1 - 1) with i by lia. exact Hlt. }
      exists k. repeat split; try lia; assumption.
    + exists i. repeat split; try lia; assumption.
Qed.

Lemma pow2_least j k value :
  0 <= j -> 0 <= k -> (k = 0 \/ 2 ^ (k - 1) < value) -> value <= 2 ^ j ->
  2 ^ k <= 2 ^ j.
Proof.
  intros Hj Hk Hleast Hreach. apply Z.pow_le_mono_r; [lia |].
  destruct Hleast as [-> | Hlt]; [lia |].
  assert (k - 1 < j); [| lia].
  apply (Z.pow_lt_mono_r_iff 2); lia.
Qed.

(** Once [ret] has wrapped to 0 the loop cannot leave. *)
Lemma Pow2Pad_loop_stuck w value fuel :
  0 < value -> Pow2Pad_loop fuel w value 0 = None.
Proof.
  intros Hv. induction fuel as [| fuel IH]; simpl.
  - destruct (Z.ltb_spec 0 value); [reflexivity | lia].
  - destruct (Z.ltb_spec 0 value); [| lia].
    rewrite Z.shiftl_0_l. unfold wrap. rewrite Zmod_0_l. exact IH.
Qed.

End Pow2PadProperties.

Section Pow2PadClaims.

(** C6, as the code has it.  For every unsigned [w]-bit value [v] with
    [1 <= v <= 2^(w-1)], [Pow2Pad v] returns the smallest power of two
    that is at least [v] (after at most [w - 1] turns of its loop), so
    [Pow2Pad 1 = 1], [Pow2Pad 5 = 8] and [Pow2Pad 8 = 8]; and [Pow2Pad 0]
    returns 1. *)
Theorem Pow2Pad_least_power_of_two :
  (forall w v fuel,
      0 < w <= 64 -> 1 <= v <= 2 ^ (w - 1) -> w - 1 <= Z.of_nat fuel ->
      exists k, 0 <= k /\ Pow2Pad fuel w v = Some (2 ^ k) /\ v <= 2 ^ k /\
                forall j, 0 <= j -> v <= 2 ^ j -> 2 ^ k <= 2 ^ j) /\
  (forall fuel, Pow2Pad fuel 32 1 = Some 1) /\
  (forall fuel, (3 <= fuel)%nat -> Pow2Pad fuel 32 5 = Some 8) /\
  (forall fuel, Pow2Pad fuel 32 8 = Some 8) /\
  (forall fuel w, Pow2Pad fuel w 0 = Some 1).
Proof.
  split; [| split; [| split; [| split]]].
  - intros w v fuel Hw Hv Hfuel.
    assert (Hv64 : 0 <= v < 2 ^ 64).
    { split; [lia |].
      assert (2 ^ (w - 1) < 2 ^ 64) by (apply Z.pow_lt_mono_r; lia). lia. }
    unfold Pow2Pad. destruct (IsPowerOfTwo v) eqn:Hp.
    + destruct (IsPowerOfTwo_sound v Hv64 Hp) as (k & Hk & ->).
      exists k. repeat split; lia.
    + destruct (Pow2Pad_loop_spec w v fuel 0) as (k & Hk & Hrun & Hreach & Hleast);
        try lia.
      exists k. repeat split; try lia; try assumption.
      intros j Hj Hvj. apply (pow2_least j k v); try lia; assumption.
  - intros fuel. reflexivity.
  - intros fuel Hfuel.
    destruct fuel as [| [| [| fuel]]]; try lia. destruct fuel; reflexivity.
  - intros fuel. reflexivity.
  - intros fuel w. unfold Pow2Pad. simpl. destruct fuel; reflexivity.
Qed.

Lemma Pow2Pad_least_power_of_two_witness :
  exists k, 0 <= k /\ Pow2Pad 63 64 1000 = Some (2 ^ k) /\ 1000 <= 2 ^ k /\
            forall j, 0 <= j -> 1000 <= 2 ^ j -> 2 ^ k <= 2 ^ j.
Proof.
  apply (proj1 Pow2Pad_least_power_of_two 64 1000 63%nat).
  - lia.
  - split; [lia | vm_compute; discriminate].
  - simpl. lia.
Defined.

(** C6 as the specification words it fails above [2^(w-1)]: no power of
    two that reaches [2^31 + 1] is a [uint32], [ret] wraps to 0 and the
    loop never ends, whatever the fuel. *)
Lemma Pow2Pad_never_returns :
  ~ (exists fuel r, Pow2Pad fuel 32 2147483649 = Some r).
Proof.
  assert (Hloop : forall fuel i, 0 <= i <= 31 ->
            Pow2Pad_loop fuel 32 2147483649 (2 ^ i) = None).
  { induction fuel as [| fuel IH]; intros i Hi.
    - simpl. destruct (Z.ltb_spec (2 ^ i) 2147483649) as [| Hge]; [reflexivity |].
      assert (2 ^ i <= 2 ^ 31) by (apply Z.pow_le_mono_r; lia).
      change (2 ^ 31) with 2147483648 in *. lia.
    - simpl. destruct (Z.ltb_spec (2 ^ i) 2147483649) as [| Hge].
      + destruct (Z.eq_dec i 31) as [-> | Hne].
        * change (wrap 32 (Z.shiftl (2 ^ 31) 1)) with 0.
          apply Pow2Pad_loop_stuck. lia.
        * replace (wrap 32 (Z.shiftl (2 ^ i) 1)) with (2 ^ (i + 1)); [apply IH; lia |].
          rewrite Z.shiftl_mul_pow2 by lia. rewrite <- Z.pow_add_r by lia.
          symmetry. apply wrap_small. split; [apply Z.pow_nonneg; lia |].
          apply Z.pow_lt_mono_r; lia.
      + assert (2 ^ i <= 2 ^ 31) by (apply Z.pow_le_mono_r; lia).
        change (2 ^ 31) with 2147483648 in *. lia. }
  intros (fuel & r & Hrun).
  unfold Pow2Pad in Hrun. change (IsPowerOfTwo 2147483649) with false in Hrun.
  cbv iota in Hrun. change 1 with (2 ^ 0) in Hrun.
  rewrite (Hloop fuel 0) in Hrun by lia. discriminate.
Qed.

End Pow2PadClaims.

(** ** [HashString] *)

Section HashStringProperties.

(** One turn of the loop on a [char] that is not negative is one step
    of the reference. *)
Lemma hash_step_nonnegative_char hash c :
  0 <= c < 256 ->
  to_uint32 (Z.lxor hash (to_uint32 c) * fnvPrime) = fnv1a_step hash (char_byte c).
Proof.
  intros Hc. unfold to_uint32, fnv1a_step, char_byte, fnvPrime.
  rewrite (wrap_small 32 c) by (split; [lia |]; change (2 ^ 32) with 4294967296; lia).
  rewrite (Z.mod_small c 256) by lia. reflexivity.
Qed.

(** The loop resumed at index [length done] folds the reference step
    over the rest of the string. *)
Lemma HashString_loop_fold rest :
  forall done fuel hash,
    Forall (fun c => 0 <= c < 256) rest ->
    Z.of_nat (length (done ++ rest)) < 2 ^ 32 ->
    (length rest <= fuel)%nat ->
    HashString_loop fuel (done ++ rest) (Z.of_nat (length (done ++ rest)))
                    (Z.of_nat (length done)) hash
    = Some (fold_left fnv1a_step (map char_byte rest) hash).
Proof.
  induction rest as [| c rest IH]; intros done fuel hash Hchars Hlen Hfuel.
  - rewrite app_nil_r in *.
    destruct fuel; simpl; rewrite Z.ltb_irrefl; reflexivity.
  - destruct fuel as [| fuel]; [simpl in Hfuel; lia |].
    rewrite length_app in Hlen. simpl in Hlen, Hfuel.
    simpl HashString_loop.
    destruct (Z.ltb_spec (Z.of_nat (length done))
                         (Z.of_nat (length (done ++ c :: rest)))) as [_ | Hge];
      [| rewrite length_app in Hge; simpl in Hge; lia].
    rewrite Nat2Z.id, list_lookup_middle by reflexivity. simpl.
    apply Forall_cons in Hchars as [Hc Hrest].
    rewrite hash_step_nonnegative_char by exact Hc.
    assert (Hnext : to_uint32 (Z.of_nat (length done) + 1)
                    = Z.of_nat (length (done ++ [c]))).
    { rewrite length_app. simpl. unfold to_uint32. rewrite wrap_small; lia. }
    rewrite Hnext.
    replace (done ++ c :: rest) with ((done ++ [c]) ++ rest)
      by (rewrite <- app_assoc; reflexivity).
    apply IH; [exact Hrest | | lia].
    rewrite !length_app. simpl. lia.
Qed.

(** On a string none of whose [char]s is negative, every [char] of a
    target where [char] is unsigned and 7-bit text elsewhere, [HashString]
    is the FNV-1a reference hash of its bytes. *)
Lemma HashString_fnv1a_nonnegative_chars pStr fuel :
  Forall (fun c => 0 <= c < 256) pStr ->
  Z.of_nat (length pStr) < 2 ^ 32 ->
  (length pStr <= fuel)%nat ->
  HashString fuel pStr (Z.of_nat (length pStr))
  = Some (fnv1a_reference (map char_byte pStr)).
Proof.
  intros Hchars Hlen Hfuel.
  apply (HashString_loop_fold pStr [] fuel fnvOffset); assumption.
Qed.

(** C5 fails on the code.  Where [char] is signed, the one-character
    string whose byte is 0x80 holds the [char] -128; the conversion to
    [uint32] sign-extends it, and the hash is not the FNV-1a hash of the
    byte. *)
Theorem HashString_sign_extends :
  HashString 1 [-128] 1 = Some 83079839 /\
  fnv1a_reference [char_byte (-128)] = 2232128415.
Proof. split; reflexivity. Qed.

End HashStringProperties.

(** ** [CountSetBits] *)

Section BytesOfWords.

Lemma testbit_split h l n :
  is_byte l -> 0 <= n ->
  Z.testbit (h * 256 + l) n = if n <? 8 then Z.testbit l n else Z.testbit h (n - 8).
Proof.
  intros Hl Hn. unfold is_byte in Hl. destruct (Z.ltb_spec n 8) as [Hlt | Hge].
  - rewrite <- (Z.mod_pow2_bits_low (h * 256 + l) 8 n) by lia. f_equal.
    change (2 ^ 8) with 256. rewrite Z.add_comm, Z.mod_add by lia.
    apply Z.mod_small. lia.
  - replace n with ((n - 8) + 8) at 1 by lia.
    rewrite <- Z.div_pow2_bits by lia. f_equal.
    change (2 ^ 8) with 256. rewrite Z.add_comm, Z.div_add by lia.
    rewrite Z.div_small by lia. lia.
Qed.

Lemma testbit_above k m n : 0 <= m < 2 ^ k -> k <= n -> Z.testbit m n = false.
Proof.
  intros Hm Hn. destruct (Z.eq_dec m 0) as [-> | Hnz]; [apply Z.bits_0 |].
  apply Z.bits_above_log2; [lia |].
  assert (Z.log2 m < k); [| lia].
  apply Z.log2_lt_pow2; lia.
Qed.

Lemma land_byte l m : is_byte l -> is_byte (Z.land l m).
Proof.
  unfold is_byte. intros Hl.
  assert (Hl' : l = Z.land l (Z.ones 8))
    by (rewrite Z.land_ones by lia; symmetry; apply Z.mod_small; exact Hl).
  rewrite Hl', <- Z.land_assoc, (Z.land_comm (Z.ones 8)), Z.land_assoc.
  rewrite Z.land_ones by lia. apply Z.mod_pos_bound. reflexivity.
Qed.

Lemma shiftr_byte l j : 0 <= j -> is_byte l -> is_byte (Z.shiftr l j).
Proof.
  unfold is_byte. intros Hj Hl. rewrite Z.shiftr_div_pow2 by lia.
  assert (0 < 2 ^ j) by (apply Z.pow_pos_nonneg; lia).
  split; [apply Z.div_pos; lia |].
  apply Z.div_lt_upper_bound; nia.
Qed.

(** A shift by [j] followed by a mask whose byte leaves room for the [j]
    bits that cross the byte boundary works on each byte alone. *)
Lemma shiftr_land_split j h l mh ml :
  0 <= j <= 8 -> is_byte l -> 0 <= ml < 2 ^ (8 - j) ->
  Z.land (Z.shiftr (h * 256 + l) j) (mh * 256 + ml)
  = Z.land (Z.shiftr h j) mh * 256 + Z.land (Z.shiftr l j) ml.
Proof.
  intros Hj Hl Hml.
  assert (Hmlb : is_byte ml).
  { unfold is_byte. split; [lia |].
    assert (2 ^ (8 - j) <= 2 ^ 8) by (apply Z.pow_le_mono_r; lia).
    change (2 ^ 8) with 256 in *. lia. }
  pose proof (land_byte (Z.shiftr l j) ml (shiftr_byte l j ltac:(lia) Hl)) as Hres.
  apply Z.bits_inj'. intros n Hn.
  rewrite Z.land_spec, Z.shiftr_spec by lia.
  rewrite !testbit_split by (assumption || lia).
  rewrite !Z.land_spec, !Z.shiftr_spec by lia.
  destruct (Z.ltb_spec n 8) as [Hn8 | Hn8]; destruct (Z.ltb_spec (n + j) 8) as [Hnj | Hnj];
    try lia.
  - reflexivity.
  - rewrite (testbit_above (8 - j) ml n) by lia.
    rewrite !andb_false_r. reflexivity.
  - rewrite Z.shiftr_spec by lia.
    replace (n + j - 8) with (n - 8 + j) by lia. reflexivity.
Qed.

Lemma land_split h l mh ml :
  is_byte l -> is_byte ml ->
  Z.land (h * 256 + l) (mh * 256 + ml) = Z.land h mh * 256 + Z.land l ml.
Proof.
  intros Hl Hml.
  pose proof (shiftr_land_split 0 h l mh ml) as Hs.
  rewrite !Z.shiftr_0_r in Hs. apply Hs; [lia | assumption |].
  unfold is_byte in Hml. change (2 ^ (8 - 0)) with 256. lia.
Qed.

End BytesOfWords.

Section PackedBytes.

Lemma pack_nonneg bs : Forall is_byte bs -> 0 <= pack bs.
Proof.
  induction 1 as [| b bs Hb _ IH]; simpl; [lia |]. unfold is_byte in Hb. lia.
Qed.

Lemma unpack_bytes n : forall x, Forall is_byte (unpack n x).
Proof.
  induction n as [| n IH]; intros x; simpl; constructor; [| apply IH].
  unfold is_byte. apply Z.mod_pos_bound. lia.
Qed.

Lemma length_unpack n : forall x, length (unpack n x) = n.
Proof. induction n as [| n IH]; intros x; simpl; [| rewrite IH]; reflexivity. Qed.

Lemma pack_unpack n : forall x, 0 <= x < 256 ^ Z.of_nat n -> pack (unpack n x) = x.
Proof.
  induction n as [| n IH]; intros x Hx.
  - simpl in *. lia.
  - rewrite Nat2Z.inj_succ, Z.pow_succ_r in Hx by lia.
    simpl. rewrite IH.
    + pose proof (Z.div_mod x 256 ltac:(lia)). lia.
    + split; [apply Z.div_pos; lia |]. apply Z.div_lt_upper_bound; lia.
Qed.

(** A shift and a mask that repeats the byte [m] act on every byte. *)
Lemma shiftr_land_pack j m bs :
  0 <= j <= 8 -> 0 <= m < 2 ^ (8 - j) -> Forall is_byte bs ->
  Z.land (Z.shiftr (pack bs) j) (pack (replicate (length bs) m))
  = pack (map (fun b => Z.land (Z.shiftr b j) m) bs).
Proof.
  intros Hj Hm. induction 1 as [| b bs Hb _ IH]; simpl.
  - rewrite Z.shiftr_0_l. reflexivity.
  - rewrite shiftr_land_split by assumption. rewrite IH. reflexivity.
Qed.

Lemma land_pack m bs :
  is_byte m -> Forall is_byte bs ->
  Z.land (pack bs) (pack (replicate (length bs) m)) = pack (map (fun b => Z.land b m) bs).
Proof.
  intros Hm. induction 1 as [| b bs Hb _ IH]; simpl; [reflexivity |].
  rewrite land_split by assumption. rewrite IH. reflexivity.
Qed.

Lemma pack_map_sub (f g : Z -> Z) bs :
  pack (map f bs) - pack (map g bs) = pack (map (fun b => f b - g b) bs).
Proof. induction bs as [| b bs IH]; simpl; [reflexivity |]. rewrite <- IH. lia. Qed.

Lemma pack_map_add (f g : Z -> Z) bs :
  pack (map f bs) + pack (map g bs) = pack (map (fun b => f b + g b) bs).
Proof. induction bs as [| b bs IH]; simpl; [reflexivity |]. rewrite <- IH. lia. Qed.

Lemma pack_map_id bs : pack (map (fun b => b) bs) = pack bs.
Proof. rewrite map_id. reflexivity. Qed.

(** The low nibble of a packed word is the low nibble of its first
    byte. *)
Lemma pack_low_nibble ds : Forall nibbles_counted ds -> 0 <= pack ds mod 16 <= 4.
Proof.
  destruct 1 as [| d ds (Hd0 & Hlo & Hhi) _]; simpl.
  - rewrite Zmod_0_l. lia.
  - replace (pack ds * 256 + d) with (d + (pack ds * 16) * 16) by lia.
    rewrite Z.mod_add by lia.
    pose proof (Z.mod_pos_bound d 16 ltac:(lia)). lia.
Qed.

(** The third step: adding the word to itself shifted by a nibble and
    masking leaves, in every byte, the sum of its two nibbles. *)
Lemma byte_count_pack ds :
  Forall nibbles_counted ds ->
  Z.land (pack ds + Z.shiftr (pack ds) 4) (pack (replicate (length ds) 0x0F))
  = pack (map byte_count ds).
Proof.
  induction 1 as [| d ds Hd Hds IH]; simpl; [reflexivity |].
  pose proof (pack_low_nibble ds Hds) as Hnib.
  destruct Hd as (Hd0 & Hlo & Hhi).
  set (P := pack ds) in *.
  rewrite Z.shiftr_div_pow2 in * by lia. change (2 ^ 4) with 16 in *.
  pose proof (Z.div_mod P 16 ltac:(lia)) as HP.
  pose proof (Z.div_mod d 16 ltac:(lia)) as Hdm.
  pose proof (Z.mod_pos_bound d 16 ltac:(lia)) as Hdr.
  assert (Hdq : 0 <= d / 16) by (apply Z.div_pos; lia).
  assert (Hshift : (P * 256 + d) / 16 = P * 16 + d / 16).
  { replace (P * 256 + d) with (d + (P * 16) * 16) by lia.
    rewrite Z.div_add by lia. lia. }
  rewrite Hshift.
  set (L := 16 * (P mod 16) + (d + d / 16)).
  replace (P * 256 + d + (P * 16 + d / 16)) with ((P + P / 16) * 256 + L)
    by (unfold L; lia).
  assert (HL : is_byte L) by (unfold is_byte, L; lia).
  rewrite land_split by (assumption || (unfold is_byte; lia)).
  rewrite IH. f_equal.
  unfold byte_count. rewrite Z.shiftr_div_pow2 by lia. change (2 ^ 4) with 16.
  change 15 with (Z.ones 4). rewrite !Z.land_ones by lia. change (2 ^ 4) with 16.
  unfold L. rewrite Z.add_comm, Z.mul_comm, Z.mod_add by lia. reflexivity.
Qed.

End PackedBytes.

Section CountSetBitsProperties.

(** A boolean property checked on the 256 byte values holds of every
    byte. *)
Lemma byte_cases (P : Z -> bool) :
  forallb P byte_values = true -> forall b, is_byte b -> P b = true.
Proof.
  intros Hall b Hb. unfold is_byte in Hb.
  apply (proj1 (forallb_forall P byte_values) Hall).
  unfold byte_values. apply in_map_iff. exists (Z.to_nat b).
  split; [lia |]. apply in_seq. lia.
Qed.

Lemma pair_counts_byte b : is_byte b -> is_byte (pair_counts b).
Proof.
  intros Hb. unfold is_byte.
  pose proof (byte_cases (fun b => (0 <=? pair_counts b) && (pair_counts b <? 256))
                         ltac:(vm_compute; reflexivity) b Hb) as Hc.
  simpl in Hc. apply andb_true_iff in Hc as [H0 H1]. lia.
Qed.

Lemma nibble_counts_counted b :
  is_byte b -> nibbles_counted (nibble_counts (pair_counts b)).
Proof.
  intros Hb. unfold nibbles_counted.
  pose proof (byte_cases
                (fun b => let d := nibble_counts (pair_counts b) in
                          (0 <=? d) && (d mod 16 <=? 4) && (d / 16 <=? 4))
                ltac:(vm_compute; reflexivity) b Hb) as Hc.
  simpl in Hc. apply andb_true_iff in Hc as [Hc H2].
  apply andb_true_iff in Hc as [H0 H1]. lia.
Qed.

(** Inside a byte the three steps count its set bits. *)
Lemma byte_count_popcount b :
  is_byte b ->
  byte_count (nibble_counts (pair_counts b)) = naive_popcount_upto 8 b.
Proof.
  intros Hb.
  pose proof (byte_cases
                (fun b => byte_count (nibble_counts (pair_counts b))
                          =? naive_popcount_upto 8 b)
                ltac:(vm_compute; reflexivity) b Hb) as Hc.
  simpl in Hc. apply Z.eqb_eq in Hc. exact Hc.
Qed.

Lemma naive_popcount_upto_range n x : 0 <= naive_popcount_upto n x <= Z.of_nat n.
Proof.
  induction n as [| n IH]; [simpl; lia |].
  rewrite Nat2Z.inj_succ. simpl naive_popcount_upto.
  destruct (Z.testbit x (Z.of_nat n)); simpl; lia.
Qed.

(** The count over the low bits of a word looks at its low byte only. *)
Lemma naive_popcount_low_byte n h b :
  (n <= 8)%nat -> is_byte b ->
  naive_popcount_upto n (h * 256 + b) = naive_popcount_upto n b.
Proof.
  intros Hn Hb. induction n as [| n IH]; [reflexivity |].
  simpl. rewrite IH by lia. rewrite testbit_split by (assumption || lia).
  destruct (Z.ltb_spec (Z.of_nat n) 8); [reflexivity | lia].
Qed.

(** The count over a word is the count over its low byte plus the count
    over the rest. *)
Lemma naive_popcount_split n h b :
  is_byte b ->
  naive_popcount_upto (n + 8) (h * 256 + b)
  = naive_popcount_upto n h + naive_popcount_upto 8 b.
Proof.
  intros Hb. induction n as [| n IH].
  - rewrite Nat.add_0_l. rewrite naive_popcount_low_byte by (assumption || lia).
    simpl naive_popcount_upto at 2. lia.
  - change (S n + 8)%nat with (S (n + 8)). simpl naive_popcount_upto at 1.
    rewrite IH. simpl naive_popcount_upto at 3.
    rewrite testbit_split by (assumption || lia).
    destruct (Z.ltb_spec (Z.of_nat (n + 8)) 8); [lia |].
    replace (Z.of_nat (n + 8) - 8) with (Z.of_nat n) by lia. lia.
Qed.

Lemma naive_popcount_pack b0 b1 b2 b3 :
  is_byte b0 -> is_byte b1 -> is_byte b2 -> is_byte b3 ->
  naive_popcount (pack [b0; b1; b2; b3])
  = naive_popcount_upto 8 b0 + naive_popcount_upto 8 b1
    + naive_popcount_upto 8 b2 + naive_popcount_upto 8 b3.
Proof.
  intros H0 H1 H2 H3. unfold naive_popcount. cbn [pack].
  change 32%nat with (24 + 8)%nat. rewrite naive_popcount_split by assumption.
  change 24%nat with (16 + 8)%nat. rewrite naive_popcount_split by assumption.
  change 16%nat with (8 + 8)%nat. rewrite naive_popcount_split by assumption.
  rewrite naive_popcount_low_byte by (assumption || lia). lia.
Qed.

(** The last step: the multiplication by [0x01010101] gathers the four
    byte counts in the top byte. *)
Lemma gather_byte_counts p0 p1 p2 p3 :
  0 <= p0 <= 8 -> 0 <= p1 <= 8 -> 0 <= p2 <= 8 -> 0 <= p3 <= 8 ->
  Z.shiftr (to_uint32 (pack [p0; p1; p2; p3] * 0x01010101)) 24 = p0 + p1 + p2 + p3.
Proof.
  intros H0 H1 H2 H3. cbn [pack]. unfold to_uint32, wrap.
  rewrite Z.shiftr_div_pow2 by lia.
  change (2 ^ 32) with 4294967296. change (2 ^ 24) with 16777216.
  set (A := p0 + 256 * (p0 + p1) + 65536 * (p0 + p1 + p2)
            + 16777216 * (p0 + p1 + p2 + p3)).
  replace ((((0 * 256 + p3) * 256 + p2) * 256 + p1) * 256 + p0) with
      (p0 + 256 * p1 + 65536 * p2 + 16777216 * p3) by lia.
  replace ((p0 + 256 * p1 + 65536 * p2 + 16777216 * p3) * 16843009) with
      (A + (p1 + p2 + p3 + 256 * (p2 + p3) + 65536 * p3) * 4294967296)
    by (unfold A; lia).
  rewrite Z.mod_add by lia. rewrite Z.mod_small by (unfold A; lia).
  unfold A.
  replace (p0 + 256 * (p0 + p1) + 65536 * (p0 + p1 + p2)
           + 16777216 * (p0 + p1 + p2 + p3)) with
      ((p0 + 256 * (p0 + p1) + 65536 * (p0 + p1 + p2))
       + (p0 + p1 + p2 + p3) * 16777216) by lia.
  rewrite Z.div_add by lia. rewrite Z.div_small by lia. lia.
Qed.

End CountSetBitsProperties.

Section CountSetBitsClaims.

Lemma pack_range bs : Forall is_byte bs -> 0 <= pack bs < 256 ^ Z.of_nat (length bs).
Proof.
  induction 1 as [| b bs Hb _ IH]; [simpl; lia |].
  cbn [pack length]. rewrite Nat2Z.inj_succ, Z.pow_succ_r by lia.
  unfold is_byte in Hb. lia.
Qed.

Lemma nibble_counts_byte b : is_byte b -> is_byte (nibble_counts (pair_counts b)).
Proof.
  intros Hb. destruct (nibble_counts_counted b Hb) as (H0 & Hlo & Hhi).
  unfold is_byte. pose proof (Z.div_mod (nibble_counts (pair_counts b)) 16 ltac:(lia)).
  lia.
Qed.

Lemma word_bytes x :
  0 <= x < 2 ^ 32 ->
  exists b0 b1 b2 b3,
    is_byte b0 /\ is_byte b1 /\ is_byte b2 /\ is_byte b3 /\ x = pack [b0; b1; b2; b3].
Proof.
  intros Hx.
  pose proof (pack_unpack 4 x Hx) as Hpack.
  pose proof (unpack_bytes 4 x) as Hbytes.
  cbn [unpack] in Hpack, Hbytes.
  apply Forall_cons in Hbytes as [H0 Hbytes].
  apply Forall_cons in Hbytes as [H1 Hbytes].
  apply Forall_cons in Hbytes as [H2 Hbytes].
  apply Forall_cons in Hbytes as [H3 _].
  eexists _, _, _, _.
  split; [exact H0 |]. split; [exact H1 |]. split; [exact H2 |]. split; [exact H3 |].
  symmetry. exact Hpack.
Qed.

(** The first two steps leave, in every byte of the word, the two nibble
    counts of that byte of the input. *)
Lemma nibble_counts_pack bs :
  Forall is_byte bs -> length bs = 4%nat ->
  let x := pack bs in
  let x1 := to_uint32 (x - Z.land (Z.shiftr x 1) 0x55555555) in
  to_uint32 (Z.land x1 0x33333333 + Z.land (Z.shiftr x1 2) 0x33333333)
  = pack (map nibble_counts (map pair_counts bs)).
Proof.
  intros Hbs Hlen x x1.
  assert (Hcs : Forall is_byte (map pair_counts bs)).
  { apply Forall_map. eapply Forall_impl; [exact Hbs |]. apply pair_counts_byte. }
  assert (Hx1 : x1 = pack (map pair_counts bs)).
  { unfold x1, x.
    change 0x55555555 with (pack (replicate 4 0x55)). rewrite <- Hlen.
    rewrite shiftr_land_pack by (assumption || (split; [lia | reflexivity]) || lia).
    rewrite <- (pack_map_id bs) at 1. rewrite pack_map_sub.
    unfold to_uint32. apply wrap_small.
    pose proof (pack_range _ Hcs) as Hr. rewrite length_map, Hlen in Hr. exact Hr. }
  rewrite Hx1.
  assert (Hlen' : length (map pair_counts bs) = 4%nat) by (rewrite length_map; exact Hlen).
  change 0x33333333 with (pack (replicate 4 0x33)). rewrite <- Hlen'.
  rewrite land_pack by (assumption || (unfold is_byte; lia)).
  rewrite shiftr_land_pack by (assumption || (split; [lia | reflexivity]) || lia).
  rewrite pack_map_add.
  unfold to_uint32. apply wrap_small.
  assert (Hds : Forall is_byte (map nibble_counts (map pair_counts bs))).
  { rewrite map_map. apply Forall_map. eapply Forall_impl; [exact Hbs |].
    apply nibble_counts_byte. }
  pose proof (pack_range _ Hds) as Hr. rewrite !length_map, Hlen in Hr. exact Hr.
Qed.

Lemma CountSetBits_pack b0 b1 b2 b3 :
  is_byte b0 -> is_byte b1 -> is_byte b2 -> is_byte b3 ->
  CountSetBits (pack [b0; b1; b2; b3])
  = naive_popcount_upto 8 b0 + naive_popcount_upto 8 b1
    + naive_popcount_upto 8 b2 + naive_popcount_upto 8 b3.
Proof.
  intros H0 H1 H2 H3. unfold CountSetBits.
  assert (Hbs : Forall is_byte [b0; b1; b2; b3])
    by (repeat (apply List.Forall_cons; [assumption |]); apply List.Forall_nil).
  rewrite (nibble_counts_pack [b0; b1; b2; b3] Hbs eq_refl).
  set (ds := map nibble_counts (map pair_counts [b0; b1; b2; b3])).
  assert (Hds : Forall nibbles_counted ds).
  { unfold ds. cbn [map].
    repeat (apply List.Forall_cons; [apply nibble_counts_counted; assumption |]).
    apply List.Forall_nil. }
  assert (Hfit : to_uint32 (pack ds + Z.shiftr (pack ds) 4) = pack ds + Z.shiftr (pack ds) 4).
  { unfold to_uint32. apply wrap_small.
    rewrite Z.shiftr_div_pow2 by lia. change (2 ^ 4) with 16.
    assert (Hbound : 0 <= pack ds <= 1145324612).
    { unfold ds. cbn [map pack].
      pose proof (nibble_counts_counted b0 H0) as (? & ? & ?).
      pose proof (nibble_counts_counted b1 H1) as (? & ? & ?).
      pose proof (nibble_counts_counted b2 H2) as (? & ? & ?).
      pose proof (nibble_counts_counted b3 H3) as (? & ? & ?).
      pose proof (Z.div_mod (nibble_counts (pair_counts b0)) 16 ltac:(lia)).
      pose proof (Z.div_mod (nibble_counts (pair_counts b1)) 16 ltac:(lia)).
      pose proof (Z.div_mod (nibble_counts (pair_counts b2)) 16 ltac:(lia)).
      pose proof (Z.div_mod (nibble_counts (pair_counts b3)) 16 ltac:(lia)).
      lia. }
    assert (0 <= pack ds / 16 <= pack ds).
    { split; [apply Z.div_pos; lia |]. apply Z.div_le_upper_bound; lia. }
    change (2 ^ 32) with 4294967296. lia. }
  rewrite Hfit.
  change 0x0F0F0F0F with (pack (replicate (length ds) 0x0F)).
  rewrite (byte_count_pack ds Hds).
  unfold ds. cbn [map]. rewrite !byte_count_popcount by assumption.
  apply gather_byte_counts; apply (naive_popcount_upto_range 8).
Qed.

(** C4. For every 32-bit unsigned [x], [CountSetBits x] is the naive
    population count of [x], the number of positions [i] in [0, 32) with
    bit [i] of [x] set; [CountSetBits 0] is 0 and [CountSetBits 0xFFFFFFFF]
    is 32. *)
Theorem CountSetBits_naive_popcount :
  (forall x, 0 <= x < 2 ^ 32 -> CountSetBits x = naive_popcount x) /\
  CountSetBits 0 = 0 /\ CountSetBits 0xFFFFFFFF = 32.
Proof.
  split; [| split; reflexivity].
  intros x Hx.
  destruct (word_bytes x Hx) as (b0 & b1 & b2 & b3 & H0 & H1 & H2 & H3 & ->).
  rewrite CountSetBits_pack, naive_popcount_pack by assumption. reflexivity.
Qed.

Lemma CountSetBits_naive_popcount_witness :
  0 <= 305419896 < 2 ^ 32 /\ CountSetBits 305419896 = naive_popcount 305419896.
Proof.
  assert (Hx : 0 <= 305419896 < 2 ^ 32) by (split; [lia | reflexivity]).
  split; [exact Hx |].
  exact (proj1 CountSetBits_naive_popcount 305419896 Hx).
Defined.

End CountSetBitsClaims.

(** ** Wide bitfields *)

Section WideBitfieldProperties.
Context `{Target}.

Lemma word_index_in_range W (bitfield : list Z) b :
  0 < W -> 0 <= b < 2 ^ 32 -> b < Z.of_nat (length bitfield) * W ->
  word_index W b = b / W /\ (Z.to_nat (b / W) < length bitfield)%nat.
Proof.
  intros HW Hb Hin.
  assert (Hq : 0 <= b / W) by (apply Z.div_pos; lia).
  assert (Hq' : b / W < Z.of_nat (length bitfield))
    by (apply Z.div_lt_upper_bound; lia).
  assert (Hle : b / W <= b) by (apply Z.div_le_upper_bound; nia).
  split; [| lia].
  unfold word_index, to_uint32. apply wrap_small. lia.
Qed.

(** [bit_mask] is a [uint32], whatever the shift yields. *)
Lemma bit_mask_range W b : 0 <= bit_mask W b < 2 ^ 32.
Proof. unfold bit_mask, to_uint32. apply wrap_range. lia. Qed.

(** For a word width that is a power of two up to 32 the mask has the
    single bit [b mod W]. *)
Lemma bit_mask_narrow k b :
  0 <= k <= 5 -> 0 <= b -> bit_mask (2 ^ k) b = 2 ^ (b mod 2 ^ k).
Proof.
  intros Hk Hb. unfold bit_mask.
  replace (2 ^ k - 1) with (Z.ones k) by (rewrite Z.ones_equiv; lia).
  rewrite Z.land_ones by lia.
  assert (Hpk : 0 < 2 ^ k) by (apply Z.pow_pos_nonneg; lia).
  pose proof (Z.mod_pos_bound b (2 ^ k) Hpk) as Hm.
  assert (Hle : 2 ^ k <= 2 ^ 5) by (apply Z.pow_le_mono_r; lia).
  change (2 ^ 5) with 32 in Hle.
  unfold int_shl1. destruct (Z.ltb_spec (b mod 2 ^ k) 32); [| lia].
  rewrite Z.shiftl_1_l. unfold to_uint32. apply wrap_small.
  split; [apply Z.pow_nonneg; lia |]. apply Z.pow_lt_mono_r; lia.
Qed.

End WideBitfieldProperties.

Section WideBitfieldClaims.

(** C10. For every wide bitfield and every in-range bit index [b],
    on every target, [WideBitfieldSetBit] and [WideBitfieldClearBit] change
    only the word at index [b / W]: the array keeps its length and every
    word at another index keeps its value. *)
Theorem WideBitfield_set_clear_frame (T : Target) W bitfield b :
  0 < W -> 0 <= b < 2 ^ 32 -> b < Z.of_nat (length bitfield) * W ->
  (exists bitfield',
      WideBitfieldSetBit W bitfield b = Some bitfield' /\
      length bitfield' = length bitfield /\
      forall i : nat, i <> Z.to_nat (b / W) -> bitfield' !! i = bitfield !! i) /\
  (exists bitfield',
      WideBitfieldClearBit W bitfield b = Some bitfield' /\
      length bitfield' = length bitfield /\
      forall i : nat, i <> Z.to_nat (b / W) -> bitfield' !! i = bitfield !! i).
Proof.
  intros HW Hb Hin.
  destruct (word_index_in_range W bitfield b HW Hb Hin) as [Hidx Hlt].
  destruct (lookup_lt_is_Some_2 bitfield _ Hlt) as [w Hw].
  unfold WideBitfieldSetBit, WideBitfieldClearBit.
  rewrite Hidx, Hw. simpl.
  split; eexists; (split; [reflexivity |]); split.
  - apply length_insert.
  - intros i Hi. apply list_lookup_insert_ne. congruence.
  - apply length_insert.
  - intros i Hi. apply list_lookup_insert_ne. congruence.
Qed.

Lemma WideBitfield_set_clear_frame_witness :
  (exists bitfield',
      @WideBitfieldSetBit x86_target 32 [1; 2; 3] 70 = Some bitfield' /\
      length bitfield' = 3%nat /\
      forall i : nat, i <> 2%nat -> bitfield' !! i = [1; 2; 3] !! i) /\
  (exists bitfield',
      @WideBitfieldClearBit x86_target 32 [1; 2; 3] 70 = Some bitfield' /\
      length bitfield' = 3%nat /\
      forall i : nat, i <> 2%nat -> bitfield' !! i = [1; 2; 3] !! i).
Proof.
  apply (WideBitfield_set_clear_frame x86_target 32 [1; 2; 3] 70).
  - lia.
  - split; [lia | reflexivity].
  - simpl. lia.
Defined.

End WideBitfieldClaims.

Section WideBitfieldRoundTrip.

Lemma land_pow2_pow2 a b :
  0 <= a -> 0 <= b -> Z.land (2 ^ a) (2 ^ b) = if a =? b then 2 ^ a else 0.
Proof.
  intros Ha Hb. destruct (Z.eqb_spec a b) as [-> | Hne].
  - apply Z.land_diag.
  - apply Z.bits_inj'. intros n Hn.
    rewrite Z.land_spec, !Z.pow2_bits_eqb, Z.bits_0 by lia.
    destruct (Z.eqb_spec a n); destruct (Z.eqb_spec b n); try reflexivity. lia.
Qed.

(** Setting bit [i] of an all-zero bitfield and testing bit [j], for a
    word width of at most 32 bits: the test answers whether [j] is [i]. *)
Lemma WideBitfield_round_trip_narrow (T : Target) k (N : nat) i j :
  0 <= k <= 5 ->
  let W := 2 ^ k in
  Z.of_nat N * W <= 2 ^ 32 ->
  0 <= i < Z.of_nat N * W -> 0 <= j < Z.of_nat N * W ->
  exists bitfield',
    WideBitfieldSetBit W (replicate N 0) i = Some bitfield' /\
    WideBitfieldIsSet W bitfield' j = Some (i =? j).
Proof.
  intros Hk W HN Hi Hj.
  assert (HW : 0 < W) by (apply Z.pow_pos_nonneg; lia).
  assert (Hlen : length (replicate N 0) = N) by apply length_replicate.
  destruct (word_index_in_range W (replicate N 0) i HW ltac:(lia) ltac:(rewrite Hlen; lia))
    as [Hii Hilt].
  destruct (word_index_in_range W (replicate N 0) j HW ltac:(lia) ltac:(rewrite Hlen; lia))
    as [Hji Hjlt].
  rewrite Hlen in Hilt, Hjlt.
  unfold WideBitfieldSetBit, WideBitfieldIsSet. rewrite Hii, Hji.
  rewrite (lookup_replicate_2 N 0 (Z.to_nat (i / W))) by exact Hilt.
  cbn [mbind option_bind].
  eexists. split; [reflexivity |].
  unfold W. rewrite !bit_mask_narrow by lia. fold W. rewrite Z.lor_0_l.
  pose proof (Z.mod_pos_bound i W HW) as Him.
  pose proof (Z.mod_pos_bound j W HW) as Hjm.
  pose proof (Z.div_mod i W ltac:(lia)) as Hidm.
  pose proof (Z.div_mod j W ltac:(lia)) as Hjdm.
  assert (Hiq : 0 <= i / W) by (apply Z.div_pos; lia).
  assert (Hjq : 0 <= j / W) by (apply Z.div_pos; lia).
  assert (Hword : wrap W (2 ^ (i mod W)) = 2 ^ (i mod W)).
  { apply wrap_small. split; [apply Z.pow_nonneg; lia |].
    apply Z.pow_lt_mono_r; lia. }
  rewrite Hword.
  destruct (Nat.eq_dec (Z.to_nat (i / W)) (Z.to_nat (j / W))) as [Heq | Hne].
  - rewrite <- Heq, list_lookup_insert_eq by (rewrite Hlen; exact Hilt).
    cbn [mbind option_bind]. rewrite land_pow2_pow2 by lia.
    assert (Hq : i / W = j / W) by lia.
    destruct (Z.eqb_spec (i mod W) (j mod W)) as [Hm | Hm].
    + assert (0 < 2 ^ (i mod W)) by (apply Z.pow_pos_nonneg; lia).
      destruct (Z.eqb_spec 0 (2 ^ (i mod W))); [lia |].
      destruct (Z.eqb_spec i j); [reflexivity | nia].
    + destruct (Z.eqb_spec i j) as [-> | _]; [contradiction | reflexivity].
  - rewrite list_lookup_insert_ne by exact Hne.
    rewrite (lookup_replicate_2 N 0 (Z.to_nat (j / W))) by exact Hjlt.
    cbn [mbind option_bind]. rewrite Z.land_0_l.
    destruct (Z.eqb_spec i j) as [-> | _]; [contradiction | reflexivity].
Qed.

End WideBitfieldRoundTrip.

Section WideBitfieldWideWords.

(** A nonzero [uint32] has a set bit below position 32. *)
Lemma uint32_set_bit m :
  0 < m < 2 ^ 32 -> exists j, 0 <= j < 32 /\ Z.testbit m j = true.
Proof.
  intros Hm. exists (Z.log2 m). split.
  - split; [apply Z.log2_nonneg | apply Z.log2_lt_pow2; lia].
  - apply Z.bit_log2. lia.
Qed.

(** C2 fails on the code for 64-bit words.  The mask is a [uint32], so
    on every target [WideBitfieldSetBit] on bit 40 of an all-zero one-word
    bitfield leaves bit 40 of the word clear; afterwards either the test of
    bit 40 answers false or the test of another bit, below 32, answers
    true.  On x86 the word becomes 256 and bit 8 tests as set. *)
Theorem WideBitfield_uint64_round_trip_fails :
  (forall T : Target,
      exists bitfield',
        WideBitfieldSetBit 64 [0] 40 = Some bitfield' /\
        wide_testbit 64 bitfield' 40 = false /\
        (WideBitfieldIsSet 64 bitfield' 40 = Some false \/
         exists j, 0 <= j < 32 /\ WideBitfieldIsSet 64 bitfield' j = Some true)) /\
  @WideBitfieldSetBit x86_target 64 [0] 40 = Some [256] /\
  @WideBitfieldIsSet x86_target 64 [256] 8 = Some true.
Proof.
  split; [| split; reflexivity].
  intros T.
  pose proof (bit_mask_range 64 40) as Hm.
  set (m := bit_mask 64 40) in *.
  assert (Hset : WideBitfieldSetBit 64 [0] 40 = Some [m]).
  { unfold WideBitfieldSetBit. change (word_index 64 40) with 0.
    change (Z.to_nat 0) with 0%nat. cbn -[wrap Z.lor]. fold m.
    rewrite Z.lor_0_l. do 2 f_equal.
    apply wrap_small. split; [lia |].
    assert (2 ^ 32 < 2 ^ 64) by reflexivity. lia. }
  exists [m]. split; [exact Hset |]. split.
  - unfold wide_testbit. change (Z.to_nat (40 / 64)) with 0%nat.
    change (40 mod 64) with 40. cbn -[Z.testbit].
    apply (testbit_above 32); lia.
  - destruct (Z.eq_dec m 0) as [Hz | Hnz].
    + left. unfold WideBitfieldIsSet. change (word_index 64 40) with 0.
      change (Z.to_nat 0) with 0%nat. cbn -[Z.land Z.eqb]. fold m.
      rewrite Hz. reflexivity.
    + right. destruct (uint32_set_bit m ltac:(lia)) as (j & Hj & Hbit).
      exists j. split; [exact Hj |].
      unfold WideBitfieldIsSet.
      assert (Hidx : word_index 64 j = 0).
      { unfold word_index. rewrite Z.div_small by lia. reflexivity. }
      rewrite Hidx. change (Z.to_nat 0) with 0%nat.
      cbn -[Z.land Z.eqb bit_mask].
      assert (Hmask : bit_mask 64 j = 2 ^ j).
      { unfold bit_mask. change (64 - 1) with (Z.ones 6).
        rewrite Z.land_ones by lia. change (2 ^ 6) with 64.
        rewrite Z.mod_small by lia.
        unfold int_shl1. destruct (Z.ltb_spec j 32); [| lia].
        rewrite Z.shiftl_1_l. unfold to_uint32. apply wrap_small.
        split; [apply Z.pow_nonneg; lia | apply Z.pow_lt_mono_r; lia]. }
      rewrite Hmask.
      destruct (Z.eqb_spec 0 (Z.land m (2 ^ j))) as [Hzero | _]; [| reflexivity].
      exfalso.
      apply (f_equal (fun z => Z.testbit z j)) in Hzero.
      rewrite Z.land_spec, Hbit, Z.pow2_bits_eqb, Z.eqb_refl, Z.bits_0 in Hzero by lia.
      discriminate.
Qed.

End WideBitfieldWideWords.

(** ** [WideBitMaskScanForward] *)

Section FindFirstSet.

Lemma ffs_pos_spec p :
  1 <= ffs_pos p /\
  Z.testbit (Zpos p) (ffs_pos p - 1) = true /\
  forall i, 0 <= i < ffs_pos p - 1 -> Z.testbit (Zpos p) i = false.
Proof.
  induction p as [q _ | q (Hge & Hbit & Hlow) |].
  - cbn [ffs_pos]. repeat split; [lia |]. intros i Hi. lia.
  - cbn [ffs_pos]. rewrite Pos2Z.inj_xO. split; [lia |]. split.
    + replace (1 + ffs_pos q - 1) with (Z.succ (ffs_pos q - 1)) by lia.
      rewrite Z.testbit_even_succ by lia. exact Hbit.
    + intros i Hi. destruct (Z.eq_dec i 0) as [-> | Hnz].
      * apply Z.testbit_even_0.
      * replace i with (Z.succ (i - 1)) by lia.
        rewrite Z.testbit_even_succ by lia. apply Hlow. lia.
  - cbn [ffs_pos]. repeat split; [lia |]. intros i Hi. lia.
Qed.

(** On a nonzero pattern [__builtin_ffs] points one past the lowest set
    bit. *)
Lemma builtin_ffs_spec x :
  0 < x ->
  1 <= builtin_ffs x /\
  Z.testbit x (builtin_ffs x - 1) = true /\
  forall i, 0 <= i < builtin_ffs x - 1 -> Z.testbit x i = false.
Proof. intros Hx. destruct x as [| p | p]; try lia. apply ffs_pos_spec. Qed.

End FindFirstSet.

Section ScanProperties.
Variable W : Z.
Variable mask : list Z.
Hypothesis W_range : 8 <= W <= 32.
Hypothesis mask_words : Forall (fun w => 0 <= w < 2 ^ W) mask.
Hypothesis mask_size : Z.of_nat (length mask) * W <= 2 ^ 32.

Let N := Z.of_nat (length mask).

Lemma mask_lookup i : 0 <= i < N -> exists w, mask !! Z.to_nat i = Some w /\ 0 <= w < 2 ^ W.
Proof.
  intros Hi. unfold N in Hi.
  destruct (lookup_lt_is_Some_2 mask (Z.to_nat i) ltac:(lia)) as [w Hw].
  exists w. split; [exact Hw |].
  exact (proj1 (Forall_lookup _ mask) mask_words _ _ Hw).
Qed.

Lemma next_word_index i : 0 <= i < N -> to_uint32 (i + 1) = i + 1.
Proof.
  intros Hi. unfold to_uint32. apply wrap_small. unfold N in *.
  change (2 ^ 32) with 4294967296 in *. nia.
Qed.

(** Bit [i * W + r] of the bitfield is bit [r] of word [i]. *)
Lemma wide_testbit_word i r w :
  0 <= i -> 0 <= r < W -> mask !! Z.to_nat i = Some w ->
  wide_testbit W mask (i * W + r) = Z.testbit w r.
Proof.
  intros Hi Hr Hw. unfold wide_testbit.
  replace ((i * W + r) / W) with i
    by (rewrite Z.add_comm, Z.div_add by lia; rewrite Z.div_small by lia; lia).
  replace ((i * W + r) mod W) with r
    by (rewrite Z.add_comm, Z.mod_add by lia; rewrite Z.mod_small by lia; lia).
  rewrite Hw. reflexivity.
Qed.

Lemma zero_word_bits i b :
  0 <= i -> mask !! Z.to_nat i = Some 0 -> i * W <= b < (i + 1) * W ->
  wide_testbit W mask b = false.
Proof.
  intros Hi Hw Hb. replace b with (i * W + (b - i * W)) by lia.
  rewrite (wide_testbit_word i (b - i * W) 0) by (assumption || lia).
  apply Z.bits_0.
Qed.

(** The first loop always ends, and ends at [N] only on an all-zero
    mask. *)
Lemma first_nonzero_loop_spec fuel :
  forall index,
    0 <= index < N -> N - index <= Z.of_nat fuel ->
    exists r, first_nonzero_loop fuel N mask index = Some r /\
      (N <= r -> forall b, index * W <= b < N * W -> wide_testbit W mask b = false).
Proof.
  induction fuel as [| fuel IH]; intros index Hi Hfuel; [lia |].
  destruct (mask_lookup index Hi) as (w & Hw & Hrange).
  cbn [first_nonzero_loop]. rewrite Hw. cbn [mbind option_bind].
  rewrite (next_word_index index Hi).
  destruct (Z.eqb_spec w 0) as [-> | Hnz].
  - destruct (Z.ltb_spec (index + 1) N) as [Hlt | Hge].
    + destruct (IH (index + 1)) as (r & Hrun & Hzero); try lia.
      exists r. split; [exact Hrun |]. intros Hr b Hb.
      destruct (Z_lt_dec b ((index + 1) * W)) as [Hlow | Hhigh].
      * apply (zero_word_bits index); (assumption || lia).
      * apply Hzero; lia.
    + exists (index + 1). split; [reflexivity |]. intros _ b Hb.
      apply (zero_word_bits index); try (assumption || lia).
      assert (N = index + 1) by lia. nia.
  - exists index. split; [reflexivity |]. intros Hr. lia.
Qed.

(** The second loop, entered at word [maskIndex], always ends: with the
    lowest set bit from that word on, or with [false] and 0 when there is
    none. *)
Lemma scan_loop_spec fuel :
  forall maskIndex,
    0 <= maskIndex < N -> N - maskIndex <= Z.of_nat fuel ->
    exists found q,
      scan_loop fuel W N mask maskIndex = Some (found, q) /\
      if found then
        maskIndex * W <= q < N * W /\ wide_testbit W mask q = true /\
        forall b, maskIndex * W <= b < q -> wide_testbit W mask b = false
      else
        q = 0 /\ forall b, maskIndex * W <= b < N * W -> wide_testbit W mask b = false.
Proof.
  induction fuel as [| fuel IH]; intros maskIndex Hi Hfuel; [lia |].
  destruct (mask_lookup maskIndex Hi) as (w & Hw & Hrange).
  cbn [scan_loop]. rewrite Hw. cbn [mbind option_bind].
  rewrite (next_word_index maskIndex Hi).
  assert (Hpat : to_uint32 w = w).
  { unfold to_uint32. apply wrap_small.
    assert (2 ^ W <= 2 ^ 32) by (apply Z.pow_le_mono_r; lia). lia. }
  rewrite Hpat.
  destruct (Z.eq_dec w 0) as [-> | Hnz].
  - cbn [builtin_ffs]. rewrite Z.eqb_refl.
    destruct (Z.ltb_spec (maskIndex + 1) N) as [Hlt | Hge].
    + destruct (IH (maskIndex + 1)) as (found & q & Hrun & Hres); try lia.
      exists found, q. split; [exact Hrun |].
      destruct found.
      * destruct Hres as (Hq & Hbit & Hlow). split; [lia |]. split; [exact Hbit |].
        intros b Hb. destruct (Z_lt_dec b ((maskIndex + 1) * W)) as [Hin | Hout].
        -- apply (zero_word_bits maskIndex); (assumption || lia).
        -- apply Hlow. lia.
      * destruct Hres as (Hq & Hnone). split; [exact Hq |].
        intros b Hb. destruct (Z_lt_dec b ((maskIndex + 1) * W)) as [Hin | Hout].
        -- apply (zero_word_bits maskIndex); (assumption || lia).
        -- apply Hnone. lia.
    + exists false, 0. split; [reflexivity |]. split; [reflexivity |].
      intros b Hb. apply (zero_word_bits maskIndex); try (assumption || lia).
      assert (N = maskIndex + 1) by lia. nia.
  - destruct (builtin_ffs_spec w ltac:(lia)) as (Hge & Hbit & Hlow).
    set (k := builtin_ffs w - 1) in *.
    assert (Hk : 0 <= k < W).
    { split; [lia |]. destruct (Z_lt_dec k W) as [| Hbig]; [assumption |].
      rewrite (testbit_above W w k) in Hbit by lia. discriminate. }
    destruct (Z.eqb_spec (builtin_ffs w) 0) as [| _]; [lia |].
    assert (Hq : maskIndex * W <= k + maskIndex * W < N * W) by nia.
    assert (Hfit : to_uint32 (k + maskIndex * W) = maskIndex * W + k).
    { unfold to_uint32. rewrite wrap_small; lia. }
    exists true, (maskIndex * W + k). split; [rewrite <- Hfit; reflexivity |].
    split; [lia |]. split.
    + rewrite (wide_testbit_word maskIndex k w) by (assumption || lia). exact Hbit.
    + intros b Hb. replace b with (maskIndex * W + (b - maskIndex * W)) by lia.
      rewrite (wide_testbit_word maskIndex (b - maskIndex * W) w) by (assumption || lia).
      apply Hlow. lia.
Qed.

(** What [WideBitMaskScanForward] answers for an in-range [*pIndex]: the
    scan starts at the first bit of the word that holds position [pIndex]. *)
Lemma WideBitMaskScanForward_spec pIndex :
  0 <= pIndex < N * W ->
  let start := pIndex / W * W in
  exists found q,
    WideBitMaskScanForward W mask pIndex = Some (found, q) /\
    if found then
      start <= q < N * W /\ wide_testbit W mask q = true /\
      forall b, start <= b < q -> wide_testbit W mask b = false
    else
      forall b, start <= b < N * W -> wide_testbit W mask b = false.
Proof.
  intros Hp start.
  assert (Hq0 : 0 <= pIndex / W) by (apply Z.div_pos; lia).
  assert (HqN : pIndex / W < N) by (apply Z.div_lt_upper_bound; lia).
  assert (Hidx : to_uint32 (pIndex / W) = pIndex / W).
  { unfold to_uint32. apply wrap_small. unfold N in *.
    change (2 ^ 32) with 4294967296 in *. nia. }
  assert (HN : 0 < N) by lia.
  unfold WideBitMaskScanForward. fold N. rewrite Hidx.
  destruct (first_nonzero_loop_spec (length mask) 0) as (r & Hrun & Hzero);
    [lia | unfold N; lia |].
  rewrite Hrun. cbn [mbind option_bind].
  destruct (Z.ltb_spec r N) as [Hlt | Hge].
  - destruct (scan_loop_spec (length mask) (pIndex / W)) as (found & q & Hscan & Hres);
      [lia | unfold N; lia |].
    exists found, q. split; [exact Hscan |].
    destruct found; [exact Hres | exact (proj2 Hres)].
  - exists false, pIndex. split; [reflexivity |].
    intros b Hb. apply (Hzero Hge).
    assert (0 <= start) by (unfold start; nia). lia.
Qed.

End ScanProperties.

Section ScanClaims.

(** C1, as the code has it.  The 3-word, 32-bit bitfield in which only
    bit 70 is set is what [WideBitfieldSetBit] makes of the all-zero one.
    [WideBitMaskScanForward] called on it with [*pIndex = 0] returns true
    and leaves [*pIndex = 70]; called again with any in-range [*pIndex]
    greater than 70 it returns true and 70 again.  In general, for an
    in-range [*pIndex], the scan finds the least-significant set bit at or
    after the first bit of the word that holds position [*pIndex], and
    reports false when no set bit remains from that word on. *)
Theorem WideBitMaskScanForward_from_word_start :
  (forall T : Target, WideBitfieldSetBit 32 [0; 0; 0] 70 = Some [0; 0; 64]) /\
  WideBitMaskScanForward 32 [0; 0; 64] 0 = Some (true, 70) /\
  (forall p, 70 < p < 96 -> WideBitMaskScanForward 32 [0; 0; 64] p = Some (true, 70)) /\
  (forall W mask pIndex,
      8 <= W <= 32 ->
      Forall (fun w => 0 <= w < 2 ^ W) mask ->
      Z.of_nat (length mask) * W <= 2 ^ 32 ->
      0 <= pIndex < Z.of_nat (length mask) * W ->
      exists found q,
        WideBitMaskScanForward W mask pIndex = Some (found, q) /\
        if found then
          pIndex / W * W <= q < Z.of_nat (length mask) * W /\
          wide_testbit W mask q = true /\
          forall b, pIndex / W * W <= b < q -> wide_testbit W mask b = false
        else
          forall b, pIndex / W * W <= b < Z.of_nat (length mask) * W ->
                    wide_testbit W mask b = false).
Proof.
  split; [| split; [| split]].
  - intros T. reflexivity.
  - reflexivity.
  - intros p Hp.
    assert (Hword : p / 32 = 2).
    { pose proof (Z.div_mod p 32 ltac:(lia)).
      pose proof (Z.mod_pos_bound p 32 ltac:(lia)). lia. }
    unfold WideBitMaskScanForward. rewrite Hword. reflexivity.
  - intros W mask pIndex HW Hwords Hsize Hp.
    exact (WideBitMaskScanForward_spec W mask HW Hwords Hsize pIndex Hp).
Qed.

Lemma WideBitMaskScanForward_from_word_start_witness :
  WideBitMaskScanForward 32 [0; 0; 64] 71 = Some (true, 70) /\
  exists found q,
    WideBitMaskScanForward 32 [32; 0; 0] 40 = Some (found, q) /\
    if found then
      40 / 32 * 32 <= q < Z.of_nat (length [32; 0; 0]) * 32 /\
      wide_testbit 32 [32; 0; 0] q = true /\
      forall b, 40 / 32 * 32 <= b < q -> wide_testbit 32 [32; 0; 0] b = false
    else
      forall b, 40 / 32 * 32 <= b < Z.of_nat (length [32; 0; 0]) * 32 ->
                wide_testbit 32 [32; 0; 0] b = false.
Proof.
  pose proof WideBitMaskScanForward_from_word_start as (_ & _ & Hagain & Hgeneral).
  split.
  - apply (Hagain 71). lia.
  - apply (Hgeneral 32 [32; 0; 0] 40).
    + lia.
    + repeat (apply List.Forall_cons; [split; [lia | reflexivity] |]).
      apply List.Forall_nil.
    + vm_compute. discriminate.
    + simpl. lia.
Defined.

(** C1 as the specification words it fails: with [*pIndex] advanced to
    71 the scan answers true and goes back to bit 70, which lies before
    position 71. *)
Lemma WideBitMaskScanForward_rescans_word :
  WideBitMaskScanForward 32 [0; 0; 64] 71 = Some (true, 70) /\
  ~ (exists q, WideBitMaskScanForward 32 [0; 0; 64] 71 = Some (false, q)).
Proof.
  split; [reflexivity |]. intros (q & Hq). vm_compute in Hq. discriminate.
Qed.

End ScanClaims.

(** ** Debug-print routing *)

Section DbgPrintClaims.
Import DbgPrint.




End DbgPrintClaims.

(** * Further properties of the inline helpers *)

(** ** Flag tests *)

Section FlagTests.

(** [TestAllFlagsSet] holds exactly when every bit of [test] is a bit of
    [src]; in particular it holds of the empty pattern 0, of which
    [TestAnyFlagSet] never holds. *)
Theorem TestAllFlagsSet_bits src test :
  (TestAllFlagsSet src test = true <->
   forall i, 0 <= i -> Z.testbit test i = true -> Z.testbit src i = true) /\
  TestAllFlagsSet src 0 = true /\ TestAnyFlagSet src 0 = false.
Proof.
  split; [| split].
  - unfold TestAllFlagsSet. rewrite Z.eqb_eq. split.
    + intros Heq i Hi Hbit. rewrite <- Heq, Z.land_spec in Hbit.
      apply andb_true_iff in Hbit. tauto.
    + intros Hall. apply Z.bits_inj'. intros i Hi. rewrite Z.land_spec.
      destruct (Z.testbit test i) eqn:Hbit; [| apply andb_false_r].
      rewrite (Hall i Hi Hbit). reflexivity.
  - unfold TestAllFlagsSet. rewrite Z.land_0_r. reflexivity.
  - unfold TestAnyFlagSet. rewrite Z.land_0_r. reflexivity.
Qed.

(** [TestAnyFlagSet] on two [uint32] patterns holds exactly when they
    share a set bit. *)
Theorem TestAnyFlagSet_bits src test :
  0 <= src < 2 ^ 32 -> 0 <= test < 2 ^ 32 ->
  (TestAnyFlagSet src test = true <->
   exists i, 0 <= i < 32 /\ Z.testbit src i = true /\ Z.testbit test i = true).
Proof.
  intros Hsrc Htest. unfold TestAnyFlagSet. rewrite negb_true_iff, Z.eqb_neq. split.
  - intros Hnz.
    assert (Hland : 0 <= Z.land src test) by (apply Z.land_nonneg; lia).
    assert (Hbit : Z.testbit (Z.land src test) (Z.log2 (Z.land src test)) = true)
      by (apply Z.bit_log2; lia).
    rewrite Z.land_spec in Hbit. apply andb_true_iff in Hbit as [Hs Ht].
    exists (Z.log2 (Z.land src test)). split; [| tauto].
    split; [apply Z.log2_nonneg |].
    destruct (Z_lt_dec (Z.log2 (Z.land src test)) 32) as [| Hbig]; [assumption |].
    rewrite (testbit_above 32 src) in Hs by lia. discriminate.
  - intros (i & Hi & Hs & Ht) Hzero.
    apply (f_equal (fun z => Z.testbit z i)) in Hzero.
    rewrite Z.land_spec, Hs, Ht, Z.bits_0 in Hzero. discriminate.
Qed.

Lemma TestAnyFlagSet_bits_witness :
  TestAnyFlagSet 6 12 = true <->
  exists i, 0 <= i < 32 /\ Z.testbit 6 i = true /\ Z.testbit 12 i = true.
Proof.
  apply (TestAnyFlagSet_bits 6 12); (split; [lia | reflexivity]).
Defined.

End FlagTests.

(** ** Powers of two and alignment, continued *)

Section MoreAlignment.

(** [IsPowerOfTwo] answers true exactly on the powers of two of
    [uint64]; in particular not on 0. *)
Theorem IsPowerOfTwo_iff a :
  0 <= a < 2 ^ 64 ->
  (IsPowerOfTwo a = true <-> exists k, 0 <= k < 64 /\ a = 2 ^ k).
Proof.
  intros Ha. split.
  - apply IsPowerOfTwo_sound. exact Ha.
  - intros (k & Hk & ->). apply IsPowerOfTwo_complete. exact Hk.
Qed.

Lemma IsPowerOfTwo_iff_witness :
  IsPowerOfTwo 4096 = true <-> exists k, 0 <= k < 64 /\ 4096 = 2 ^ k.
Proof. apply (IsPowerOfTwo_iff 4096). split; [lia | reflexivity]. Defined.

Lemma low_mask_uint64 k : 0 <= k < 64 -> to_uint64 (2 ^ k - 1) = Z.ones k.
Proof.
  intros Hk. rewrite Z.ones_equiv. unfold to_uint64.
  assert (0 < 2 ^ k) by (apply Z.pow_pos_nonneg; lia).
  assert (2 ^ k < 2 ^ 64) by (apply Z.pow_lt_mono_r; lia).
  rewrite wrap_small; lia.
Qed.

(** For a power-of-two alignment, [IsPow2Aligned] answers whether the
    value is a multiple of the alignment. *)
Theorem IsPow2Aligned_multiple value alignment :
  0 <= value < 2 ^ 64 -> 0 <= alignment < 2 ^ 64 -> IsPowerOfTwo alignment = true ->
  (IsPow2Aligned value alignment = true <-> value mod alignment = 0).
Proof.
  intros Hv Ha Hp. destruct (IsPowerOfTwo_sound alignment Ha Hp) as (k & Hk & ->).
  unfold IsPow2Aligned. rewrite low_mask_uint64 by exact Hk.
  rewrite Z.land_ones by lia. apply Z.eqb_eq.
Qed.

Lemma IsPow2Aligned_multiple_witness :
  IsPow2Aligned 4104 8 = true <-> 4104 mod 8 = 0.
Proof.
  apply (IsPow2Aligned_multiple 4104 8).
  - split; [lia | reflexivity].
  - split; [lia | reflexivity].
  - reflexivity.
Defined.

(** Where the sum in the source does not wrap, [Pow2Align] returns the
    least multiple of the alignment that is at least the value; it
    returns the value itself exactly when the value is aligned. *)
Theorem Pow2Align_least_multiple w value alignment :
  0 < w <= 64 -> 0 <= value < 2 ^ w -> 0 <= alignment < 2 ^ 64 ->
  IsPowerOfTwo alignment = true -> value + alignment - 1 < 2 ^ w ->
  let r := Pow2Align w value alignment in
  value <= r < value + alignment /\ r mod alignment = 0 /\
  IsPow2Aligned r alignment = true /\
  (r = value <-> value mod alignment = 0).
Proof.
  intros Hw Hv Ha Hp Hfit r.
  destruct (IsPowerOfTwo_sound alignment Ha Hp) as (k & Hk & ->).
  assert (Hpk : 0 < 2 ^ k) by (apply Z.pow_pos_nonneg; lia).
  destruct (Z_lt_dec k w) as [Hkw | Hkw].
  2:{ assert (2 ^ w <= 2 ^ k) by (apply Z.pow_le_mono_r; lia).
      assert (value = 0) by lia. subst value.
      assert (Hr : r = 0) by (unfold r; apply Pow2Align_wide_alignment; lia).
      rewrite Hr. rewrite Z.mod_0_l by lia.
      split; [lia |]. split; [reflexivity |]. split; [| tauto].
      apply IsPow2Aligned_multiple; try assumption; [lia |].
      apply Z.mod_0_l. lia. }
  set (q := (value + 2 ^ k - 1) / 2 ^ k).
  assert (Hr : r = 2 ^ k * q).
  { unfold r, q. rewrite Pow2Align_small_alignment by lia.
    rewrite wrap_small by lia. reflexivity. }
  pose proof (Z.div_mod (value + 2 ^ k - 1) (2 ^ k) ltac:(lia)) as Hdm.
  pose proof (Z.mod_pos_bound (value + 2 ^ k - 1) (2 ^ k) Hpk) as Hmb.
  fold q in Hdm.
  assert (Hmod : r mod 2 ^ k = 0).
  { rewrite Hr, Z.mul_comm. apply Z.mod_mul. lia. }
  assert (Hrange : value <= r < value + 2 ^ k) by (rewrite Hr; lia).
  split; [exact Hrange |]. split; [exact Hmod |]. split.
  - apply IsPow2Aligned_multiple; try assumption.
    assert (2 ^ w <= 2 ^ 64) by (apply Z.pow_le_mono_r; lia). lia.
  - split.
    + intros Hsame. rewrite <- Hsame. exact Hmod.
    + intros Hvm.
      pose proof (Z.div_mod value (2 ^ k) ltac:(lia)) as Hvd.
      rewrite Hvm in Hvd.
      assert (q = value / 2 ^ k) by nia. rewrite Hr. lia.
Qed.

Lemma Pow2Align_least_multiple_witness :
  let r := Pow2Align 32 13 8 in
  13 <= r < 13 + 8 /\ r mod 8 = 0 /\ IsPow2Aligned r 8 = true /\
  (r = 13 <-> 13 mod 8 = 0).
Proof.
  apply (Pow2Align_least_multiple 32 13 8).
  - lia.
  - split; [lia | reflexivity].
  - split; [lia | reflexivity].
  - reflexivity.
  - reflexivity.
Defined.

End MoreAlignment.

Section RoundingDown.

Lemma Pow2AlignDown_value w k value :
  0 < w <= 64 -> 0 <= k < 64 -> 0 <= value < 2 ^ w ->
  Pow2AlignDown w value (2 ^ k) = value - value mod 2 ^ k.
Proof.
  intros Hw Hk Hv. unfold Pow2AlignDown, to_uint64.
  assert (Hpk : 0 < 2 ^ k) by (apply Z.pow_pos_nonneg; lia).
  assert (H64 : 2 ^ w <= 2 ^ 64) by (apply Z.pow_le_mono_r; lia).
  rewrite (land_low_mask 64 k value) by lia.
  pose proof (Z.div_mod value (2 ^ k) ltac:(lia)) as Hdm.
  pose proof (Z.mod_pos_bound value (2 ^ k) Hpk) as Hmb.
  pose proof (Z.mod_le value (2 ^ k) ltac:(lia) Hpk) as Hle.
  set (m := 2 ^ k * (value / 2 ^ k)) in *.
  rewrite wrap_small by lia. lia.
Qed.

(** For a power-of-two alignment [Pow2AlignDown] returns the greatest
    multiple of the alignment that does not exceed the value, for every
    value of the type, and aligning down again changes nothing. *)
Theorem Pow2AlignDown_greatest_multiple w value alignment :
  0 < w <= 64 -> 0 <= value < 2 ^ w -> 0 <= alignment < 2 ^ 64 ->
  IsPowerOfTwo alignment = true ->
  let r := Pow2AlignDown w value alignment in
  r <= value < r + alignment /\ r mod alignment = 0 /\
  Pow2AlignDown w r alignment = r.
Proof.
  intros Hw Hv Ha Hp r.
  destruct (IsPowerOfTwo_sound alignment Ha Hp) as (k & Hk & ->).
  assert (Hpk : 0 < 2 ^ k) by (apply Z.pow_pos_nonneg; lia).
  assert (Hr : r = value - value mod 2 ^ k)
    by (unfold r; apply Pow2AlignDown_value; lia).
  pose proof (Z.div_mod value (2 ^ k) ltac:(lia)) as Hdm.
  pose proof (Z.mod_pos_bound value (2 ^ k) Hpk) as Hmb.
  assert (Hmod : r mod 2 ^ k = 0).
  { rewrite Hr. replace (value - value mod 2 ^ k) with (value / 2 ^ k * 2 ^ k) by lia.
    apply Z.mod_mul. lia. }
  pose proof (Z.mod_le value (2 ^ k) ltac:(lia) Hpk) as Hle.
  split; [lia |]. split; [exact Hmod |].
  rewrite Pow2AlignDown_value by lia. rewrite Hmod. lia.
Qed.

Lemma Pow2AlignDown_greatest_multiple_witness :
  let r := Pow2AlignDown 32 4294967295 4096 in
  r <= 4294967295 < r + 4096 /\ r mod 4096 = 0 /\ Pow2AlignDown 32 r 4096 = r.
Proof.
  apply (Pow2AlignDown_greatest_multiple 32 4294967295 4096).
  - lia.
  - split; [lia | reflexivity].
  - split; [lia | reflexivity].
  - reflexivity.
Defined.

Lemma RoundDownToMultiple_value w operand alignment :
  0 <= w -> 0 <= operand < 2 ^ w -> 0 < alignment ->
  RoundDownToMultiple w operand alignment = Some (operand - operand mod alignment).
Proof.
  intros Hw Hv Ha. unfold RoundDownToMultiple.
  destruct (Z.eqb_spec alignment 0); [lia |]. f_equal.
  pose proof (Z.div_mod operand alignment ltac:(lia)) as Hdm.
  pose proof (Z.mod_pos_bound operand alignment Ha) as Hmb.
  pose proof (Z.mod_le operand alignment ltac:(lia) Ha) as Hle.
  replace (operand / alignment * alignment) with (operand - operand mod alignment) by lia.
  apply wrap_small. lia.
Qed.

(** [RoundDownToMultiple] on a [uint32] or [uint64] returns, for every
    nonzero alignment, the greatest multiple of the alignment that does
    not exceed the operand; for a zero alignment it has no result; and
    for a power-of-two alignment it agrees with [Pow2AlignDown]. *)
Theorem RoundDownToMultiple_greatest_multiple w operand alignment :
  w = 32 \/ w = 64 -> 0 <= operand < 2 ^ w -> 0 <= alignment < 2 ^ w ->
  (alignment = 0 -> RoundDownToMultiple w operand alignment = None) /\
  (0 < alignment ->
   exists r, RoundDownToMultiple w operand alignment = Some r /\
             r <= operand < r + alignment /\ r mod alignment = 0) /\
  (IsPowerOfTwo alignment = true ->
   RoundDownToMultiple w operand alignment = Some (Pow2AlignDown w operand alignment)).
Proof.
  intros Hw Hv Ha.
  assert (Hw' : 0 < w <= 64) by lia.
  assert (H64 : 2 ^ w <= 2 ^ 64) by (apply Z.pow_le_mono_r; lia).
  split; [| split].
  - intros ->. reflexivity.
  - intros Hpos. exists (operand - operand mod alignment).
    split; [apply RoundDownToMultiple_value; lia |].
    pose proof (Z.div_mod operand alignment ltac:(lia)) as Hdm.
    pose proof (Z.mod_pos_bound operand alignment Hpos) as Hmb.
    split; [lia |].
    replace (operand - operand mod alignment) with (operand / alignment * alignment) by lia.
    apply Z.mod_mul. lia.
  - intros Hp. destruct (IsPowerOfTwo_sound alignment ltac:(lia) Hp) as (k & Hk & ->).
    assert (0 < 2 ^ k) by (apply Z.pow_pos_nonneg; lia).
    rewrite RoundDownToMultiple_value, Pow2AlignDown_value by lia. reflexivity.
Qed.

Lemma RoundDownToMultiple_greatest_multiple_witness :
  (12 = 0 -> RoundDownToMultiple 32 100 12 = None) /\
  (0 < 12 ->
   exists r, RoundDownToMultiple 32 100 12 = Some r /\
             r <= 100 < r + 12 /\ r mod 12 = 0) /\
  (IsPowerOfTwo 12 = true ->
   RoundDownToMultiple 32 100 12 = Some (Pow2AlignDown 32 100 12)).
Proof.
  apply (RoundDownToMultiple_greatest_multiple 32 100 12).
  - left. reflexivity.
  - split; [lia | reflexivity].
  - split; [lia | reflexivity].
Defined.

End RoundingDown.

Section RoundingUp.

(** Where [dividend + divisor - 1] fits the type, [RoundUpQuotient] on a
    [uint32] or [uint64] is the ceiling of the quotient: the least [q]
    with [dividend <= q * divisor]. *)
Theorem RoundUpQuotient_ceiling w dividend divisor :
  w = 32 \/ w = 64 -> 0 <= dividend < 2 ^ w -> 0 < divisor < 2 ^ w ->
  dividend + divisor - 1 < 2 ^ w ->
  exists q, RoundUpQuotient w dividend divisor = Some q /\
            (q - 1) * divisor < dividend <= q * divisor.
Proof.
  intros Hw Hn Hd Hfit. unfold RoundUpQuotient.
  destruct (Z.eqb_spec divisor 0); [lia |].
  rewrite (wrap_small w (divisor - 1)) by lia.
  rewrite wrap_small by lia.
  eexists. split; [reflexivity |].
  pose proof (Z.div_mod (dividend + (divisor - 1)) divisor ltac:(lia)) as Hdm.
  pose proof (Z.mod_pos_bound (dividend + (divisor - 1)) divisor ltac:(lia)) as Hmb.
  set (q := (dividend + (divisor - 1)) / divisor) in *. nia.
Qed.

Lemma RoundUpQuotient_ceiling_witness :
  exists q, RoundUpQuotient 32 100 12 = Some q /\ (q - 1) * 12 < 100 <= q * 12.
Proof.
  apply (RoundUpQuotient_ceiling 32 100 12).
  - left. reflexivity.
  - split; [lia | reflexivity].
  - split; [lia | reflexivity].
  - reflexivity.
Defined.

(** Where [operand + alignment - 1] fits the type, [RoundUpToMultiple]
    on a [uint32] or [uint64] returns the least multiple of the alignment
    that is at least the operand. *)
Theorem RoundUpToMultiple_least_multiple w operand alignment :
  w = 32 \/ w = 64 -> 0 <= operand < 2 ^ w -> 0 < alignment < 2 ^ w ->
  operand + alignment - 1 < 2 ^ w ->
  exists r, RoundUpToMultiple w operand alignment = Some r /\
            operand <= r < operand + alignment /\ r mod alignment = 0.
Proof.
  intros Hw Hn Ha Hfit. unfold RoundUpToMultiple.
  destruct (Z.eqb_spec alignment 0); [lia |].
  rewrite (wrap_small w (alignment - 1)) by lia.
  rewrite (wrap_small w (operand + (alignment - 1))) by lia.
  pose proof (Z.div_mod (operand + (alignment - 1)) alignment ltac:(lia)) as Hdm.
  pose proof (Z.mod_pos_bound (operand + (alignment - 1)) alignment ltac:(lia)) as Hmb.
  set (q := (operand + (alignment - 1)) / alignment) in *.
  assert (Hq : 0 <= q) by (apply Z.div_pos; lia).
  exists (q * alignment). split; [f_equal; apply wrap_small; nia |].
  split; [nia |]. apply Z.mod_mul. lia.
Qed.

Lemma RoundUpToMultiple_least_multiple_witness :
  exists r, RoundUpToMultiple 32 100 12 = Some r /\
            100 <= r < 100 + 12 /\ r mod 12 = 0.
Proof.
  apply (RoundUpToMultiple_least_multiple 32 100 12).
  - left. reflexivity.
  - split; [lia | reflexivity].
  - split; [lia | reflexivity].
  - reflexivity.
Defined.

(** For a power-of-two alignment that fits the type, [RoundUpToMultiple]
    and [Pow2Align] return the same value on every operand, also where
    the sum wraps. *)
Theorem RoundUpToMultiple_is_Pow2Align w operand alignment :
  w = 32 \/ w = 64 -> 0 <= operand < 2 ^ w -> 0 <= alignment < 2 ^ w ->
  IsPowerOfTwo alignment = true ->
  RoundUpToMultiple w operand alignment = Some (Pow2Align w operand alignment).
Proof.
  intros Hw Hn Ha Hp.
  assert (H64 : 2 ^ w <= 2 ^ 64) by (apply Z.pow_le_mono_r; lia).
  destruct (IsPowerOfTwo_sound alignment ltac:(lia) Hp) as (k & Hk & ->).
  assert (Hpk : 0 < 2 ^ k) by (apply Z.pow_pos_nonneg; lia).
  assert (Hkw : k < w).
  { destruct (Z_lt_dec k w); [assumption |].
    assert (2 ^ w <= 2 ^ k) by (apply Z.pow_le_mono_r; lia). lia. }
  rewrite Pow2Align_small_alignment by lia.
  unfold RoundUpToMultiple. destruct (Z.eqb_spec (2 ^ k) 0); [lia |]. f_equal.
  rewrite (wrap_small w (2 ^ k - 1)) by lia.
  replace (operand + (2 ^ k - 1)) with (operand + 2 ^ k - 1) by lia.
  pose proof (wrap_range w (operand + 2 ^ k - 1) ltac:(lia)) as Hx.
  set (x := wrap w (operand + 2 ^ k - 1)) in *.
  pose proof (Z.div_mod x (2 ^ k) ltac:(lia)) as Hdm.
  pose proof (Z.mod_pos_bound x (2 ^ k) Hpk) as Hmb.
  pose proof (Z.mod_le x (2 ^ k) ltac:(lia) Hpk) as Hle.
  rewrite (Z.mul_comm (x / 2 ^ k)).
  set (m := 2 ^ k * (x / 2 ^ k)) in *.
  apply wrap_small. lia.
Qed.

Lemma RoundUpToMultiple_is_Pow2Align_witness :
  RoundUpToMultiple 32 4294967295 16 = Some (Pow2Align 32 4294967295 16).
Proof.
  apply (RoundUpToMultiple_is_Pow2Align 32 4294967295 16).
  - left. reflexivity.
  - split; [lia | reflexivity].
  - split; [lia | reflexivity].
  - reflexivity.
Defined.

End RoundingUp.

(** ** Ordering helpers *)

Section Clamping.

Lemma Z_strict_total_order : StrictTotalOrder Z.
Proof.
  split; unfold less, Z_less.
  - apply Z.ltb_irrefl.
  - intros a b c Hab Hbc. apply Z.ltb_lt in Hab, Hbc. apply Z.ltb_lt. lia.
  - intros a b Hab Hba. apply Z.ltb_ge in Hab, Hba. lia.
Qed.

Lemma less_asymmetric {T : Type} `{StrictTotalOrder T} (a b : T) :
  less a b = true -> less b a = false.
Proof.
  intros Hab. destruct (less b a) eqn:Hba; [| reflexivity].
  rewrite <- (less_irreflexive a). symmetry. apply (less_transitive a b a); assumption.
Qed.

(** An input that compares false with both bounds, as a floating-point
    NaN does, comes back from [Clamp] as it is. *)
Lemma Clamp_unordered_input {T : Type} `{Less T} (input lowBound highBound : T) :
  less input lowBound = false -> less highBound input = false ->
  Clamp input lowBound highBound = input.
Proof. intros Hlo Hhi. unfold Clamp. rewrite Hlo, Hhi. reflexivity. Qed.

(** On a type whose [<] is a strict total order (every integer type),
    with [lowBound <= highBound], [Clamp] lands in the interval, leaves a
    value of the interval alone, is [Max lowBound (Min input highBound)],
    and clamping twice is clamping once. *)
Theorem Clamp_in_bounds {T : Type} `{StrictTotalOrder T} (input lowBound highBound : T) :
  less highBound lowBound = false ->
  let c := Clamp input lowBound highBound in
  less c lowBound = false /\ less highBound c = false /\
  (less input lowBound = false -> less highBound input = false -> c = input) /\
  c = Max lowBound (Min input highBound) /\
  Clamp c lowBound highBound = c.
Proof.
  intros Hb c. unfold c, Clamp, Max, Min.
  destruct (less input lowBound) eqn:Hlo.
  - rewrite (less_irreflexive lowBound), Hb.
    split; [reflexivity |]. split; [reflexivity |]. split; [discriminate |].
    split; [| reflexivity].
    destruct (less input highBound) eqn:Hih.
    + rewrite Hlo. reflexivity.
    + rewrite Hb. destruct (less highBound input) eqn:Hhi.
      * rewrite (less_transitive highBound input lowBound Hhi Hlo) in Hb. discriminate.
      * rewrite (less_total input highBound Hih Hhi) in Hlo.
        rewrite Hlo in Hb. discriminate.
  - destruct (less highBound input) eqn:Hhi.
    + rewrite Hb, (less_irreflexive highBound).
      split; [reflexivity |]. split; [reflexivity |]. split; [discriminate |].
      split; [| reflexivity].
      rewrite (less_asymmetric highBound input Hhi), Hb. reflexivity.
    + rewrite Hlo, Hhi.
      split; [reflexivity |]. split; [reflexivity |]. split; [reflexivity |].
      split; [| reflexivity].
      destruct (less input highBound) eqn:Hih.
      * rewrite Hlo. reflexivity.
      * rewrite Hb. apply (less_total input highBound Hih Hhi).
Qed.

Lemma Clamp_in_bounds_witness :
  let c := Clamp 300 0 255 in
  less c 0 = false /\ less 255 c = false /\
  (less 300 0 = false -> less 255 300 = false -> c = 300) /\
  c = Max 0 (Min 300 255) /\ Clamp c 0 255 = c.
Proof.
  apply (@Clamp_in_bounds Z Z_less Z_strict_total_order 300 0 255). reflexivity.
Defined.

End Clamping.

(** ** Logarithms *)

Section Logarithms.

(** [Log2] is exact on the powers of two and monotone. *)
Theorem Log2_powers_and_monotone :
  (forall k, 0 <= k < 64 -> Log2 (2 ^ k) = k) /\
  (forall u v, 1 <= u <= v -> v < 2 ^ 64 -> Log2 u <= Log2 v).
Proof.
  split.
  - intros k Hk.
    assert (0 < 2 ^ k) by (apply Z.pow_pos_nonneg; lia).
    assert (2 ^ k < 2 ^ 64) by (apply Z.pow_lt_mono_r; lia).
    rewrite Log2_eq_log2 by lia. apply Z.log2_pow2. lia.
  - intros u v Huv Hv. rewrite !Log2_eq_log2 by lia. apply Z.log2_le_mono. lia.
Qed.

Lemma Log2_powers_and_monotone_witness :
  Log2 (2 ^ 10) = 10 /\ Log2 1000 <= Log2 1024.
Proof.
  pose proof Log2_powers_and_monotone as [Hpow Hmono]. split.
  - apply (Hpow 10). lia.
  - apply (Hmono 1000 1024); [lia | reflexivity].
Defined.

Lemma CeilLog2_loop_spec L u fuel :
  forall i,
    0 < L <= 64 -> 0 <= i < L -> u <= 2 ^ (L - 1) ->
    (i = 0 \/ 2 ^ (i - 1) < u) ->
    L - 1 - i <= Z.of_nat fuel ->
    exists k, i <= k < L /\
      CeilLog2_loop fuel L u i = Some k /\
      u <= 2 ^ k /\ (k = 0 \/ 2 ^ (k - 1) < u).
Proof.
  induction fuel as [| fuel IH]; intros i HL Hi Hu Hlow Hfuel.
  - assert (i = L - 1) by lia. subst i. exists (L - 1).
    cbn [CeilLog2_loop]. destruct (Z.ltb_spec (L - 1) L); [| lia].
    rewrite Z.shiftl_1_l.
    rewrite wrap_small
      by (split; [apply Z.pow_nonneg; lia | apply Z.pow_lt_mono_r; lia]).
    destruct (Z.ltb_spec (2 ^ (L - 1)) u); [lia |].
    repeat split; try lia; assumption.
  - cbn [CeilLog2_loop]. destruct (Z.ltb_spec i L); [| lia].
    rewrite Z.shiftl_1_l.
    rewrite wrap_small
      by (split; [apply Z.pow_nonneg; lia | apply Z.pow_lt_mono_r; lia]).
    destruct (Z.ltb_spec (2 ^ i) u) as [Hlt | Hge].
    + assert (Hi' : i < L - 1).
      { destruct (Z_lt_dec i (L - 1)); [assumption |].
        assert (i = L - 1) by lia. subst i. lia. }
      assert (Hnext : to_uint32 (i + 1) = i + 1).
      { unfold to_uint32. apply wrap_small. change (2 ^ 32) with 4294967296. lia. }
      rewrite Hnext.
      destruct (IH (i + 1)) as (k & Hk & Hrun & Hreach & Hleast); try lia.
      { right. replace (i + 1 - 1) with i by lia. exact Hlt. }
      exists k. repeat split; try lia; assumption.
    + exists i. repeat split; try lia; assumption.
Qed.

(** For [0 <= u <= 2^(L-1)], [CeilLog2 u] is the least [k] with
    [u <= 2^k] (0 for [u] 0 and 1), reached within [L - 1] turns of the
    loop. *)
Theorem CeilLog2_least_exponent L u fuel :
  L = 32 \/ L = 64 -> 0 <= u <= 2 ^ (L - 1) -> L - 1 <= Z.of_nat fuel ->
  exists k, CeilLog2 fuel L u = Some k /\ 0 <= k < L /\ u <= 2 ^ k /\
            forall j, 0 <= j -> u <= 2 ^ j -> k <= j.
Proof.
  intros HL Hu Hfuel. unfold CeilLog2.
  destruct (CeilLog2_loop_spec L u fuel 0) as (k & Hk & Hrun & Hreach & Hleast); try lia.
  exists k. split; [exact Hrun |]. split; [lia |]. split; [exact Hreach |].
  intros j Hj Huj. destruct Hleast as [-> | Hlt]; [lia |].
  assert (k - 1 < j); [| lia]. apply (Z.pow_lt_mono_r_iff 2); lia.
Qed.

Lemma CeilLog2_least_exponent_witness :
  exists k, CeilLog2 63 64 1000 = Some k /\ 0 <= k < 64 /\ 1000 <= 2 ^ k /\
            forall j, 0 <= j -> 1000 <= 2 ^ j -> k <= j.
Proof.
  apply (CeilLog2_least_exponent 64 1000 63).
  - right. reflexivity.
  - split; [lia | vm_compute; discriminate].
  - simpl. lia.
Defined.

End Logarithms.

Section CeilingAndPadding.

Lemma least_exponent_le u k k' :
  0 <= k -> 0 <= k' -> (k = 0 \/ 2 ^ (k - 1) < u) -> u <= 2 ^ k' -> k <= k'.
Proof.
  intros Hk Hk' Hleast Hreach. destruct Hleast as [-> | Hlt]; [lia |].
  assert (k - 1 < k'); [| lia]. apply (Z.pow_lt_mono_r_iff 2); lia.
Qed.

(** Above [2^(L-1)] no exponent below the width of [unsigned long]
    reaches [u]: [CeilLog2] goes on to a shift by the full width and has
    no result, whatever the fuel. *)
Theorem CeilLog2_above_half_range L u fuel :
  L = 32 \/ L = 64 -> 2 ^ (L - 1) < u -> CeilLog2 fuel L u = None.
Proof.
  intros HL Hu. unfold CeilLog2.
  assert (Hloop : forall fuel i, 0 <= i <= L -> CeilLog2_loop fuel L u i = None).
  { clear fuel. induction fuel as [| fuel IH]; intros i Hi.
    - cbn [CeilLog2_loop]. destruct (Z.ltb_spec i L); [| reflexivity].
      rewrite Z.shiftl_1_l.
      rewrite wrap_small
        by (split; [apply Z.pow_nonneg; lia | apply Z.pow_lt_mono_r; lia]).
      assert (2 ^ i <= 2 ^ (L - 1)) by (apply Z.pow_le_mono_r; lia).
      destruct (Z.ltb_spec (2 ^ i) u); [reflexivity | lia].
    - cbn [CeilLog2_loop]. destruct (Z.ltb_spec i L); [| reflexivity].
      rewrite Z.shiftl_1_l.
      rewrite wrap_small
        by (split; [apply Z.pow_nonneg; lia | apply Z.pow_lt_mono_r; lia]).
      assert (2 ^ i <= 2 ^ (L - 1)) by (apply Z.pow_le_mono_r; lia).
      destruct (Z.ltb_spec (2 ^ i) u); [| lia].
      assert (Hnext : to_uint32 (i + 1) = i + 1).
      { unfold to_uint32. apply wrap_small. change (2 ^ 32) with 4294967296. lia. }
      rewrite Hnext. apply IH. lia. }
  apply Hloop. lia.
Qed.

Lemma CeilLog2_above_half_range_witness : CeilLog2 100 32 2147483649 = None.
Proof.
  apply (CeilLog2_above_half_range 32 2147483649 100).
  - left. reflexivity.
  - reflexivity.
Defined.

(** [Pow2Pad] is two to the power [CeilLog2] wherever both have a
    result: for a [uint32] or [uint64] value [u] with [u <= 2^(w-1)], [w]
    the width of its type, and [u <= 2^(L-1)], [L] the width of
    [unsigned long] (32 or 64), both loops stop at the same exponent. *)
Theorem Pow2Pad_is_pow2_CeilLog2 w L u fuel :
  w = 32 \/ w = 64 -> L = 32 \/ L = 64 ->
  0 <= u <= 2 ^ (w - 1) -> u <= 2 ^ (L - 1) -> 63 <= Z.of_nat fuel ->
  exists k, CeilLog2 fuel L u = Some k /\ Pow2Pad fuel w u = Some (2 ^ k).
Proof.
  intros Hw HL Hu HuL Hfuel.
  assert (Hu63 : u <= 2 ^ 63).
  { assert (2 ^ (w - 1) <= 2 ^ 63) by (apply Z.pow_le_mono_r; lia). lia. }
  destruct (CeilLog2_loop_spec L u fuel 0) as (k & Hk & Hrun & Hreach & Hleast);
    try lia.
  exists k. split; [exact Hrun |].
  unfold Pow2Pad. destruct (IsPowerOfTwo u) eqn:Hp.
  - assert (Hu64 : 0 <= u < 2 ^ 64).
    { assert (2 ^ 63 < 2 ^ 64) by reflexivity. lia. }
    destruct (IsPowerOfTwo_sound u Hu64 Hp) as (j & Hj & ->).
    do 2 f_equal. apply Z.le_antisymm.
    + apply (Z.pow_le_mono_r_iff 2); lia.
    + apply (least_exponent_le (2 ^ j) k j); try lia; assumption.
  - destruct (Pow2Pad_loop_spec w u fuel 0) as (k' & Hk' & Hrun' & Hreach' & Hleast');
      try lia.
    change (2 ^ 0) with 1 in Hrun'. rewrite Hrun'. do 2 f_equal.
    apply Z.le_antisymm.
    + apply (least_exponent_le u k' k); try lia; assumption.
    + apply (least_exponent_le u k k'); try lia; assumption.
Qed.

Lemma Pow2Pad_is_pow2_CeilLog2_witness :
  exists k, CeilLog2 63 32 1000 = Some k /\ Pow2Pad 63 64 1000 = Some (2 ^ k).
Proof.
  apply (Pow2Pad_is_pow2_CeilLog2 64 32 1000 63).
  - right. reflexivity.
  - left. reflexivity.
  - split; [lia | vm_compute; discriminate].
  - vm_compute. discriminate.
  - simpl. lia.
Defined.

End CeilingAndPadding.

(** ** Scanning, continued *)

Section SingleWordScan.

(** [BitMaskScanForward] on a [uint32] answers false with index 0 on an
    empty mask, and otherwise true with the index of the lowest set bit. *)
Theorem BitMaskScanForward_lowest_bit mask :
  0 <= mask < 2 ^ 32 ->
  (mask = 0 -> BitMaskScanForward mask = (false, 0)) /\
  (mask <> 0 ->
   exists i, BitMaskScanForward mask = (true, i) /\ 0 <= i < 32 /\
             Z.testbit mask i = true /\
             forall j, 0 <= j < i -> Z.testbit mask j = false).
Proof.
  intros Hm. unfold BitMaskScanForward, to_uint32. rewrite (wrap_small 32 mask) by lia.
  split.
  - intros ->. reflexivity.
  - intros Hnz. destruct (builtin_ffs_spec mask ltac:(lia)) as (Hge & Hbit & Hlow).
    set (i := builtin_ffs mask - 1) in *.
    assert (Hi : 0 <= i < 32).
    { split; [lia |]. destruct (Z_lt_dec i 32) as [| Hbig]; [assumption |].
      rewrite (testbit_above 32 mask i) in Hbit by lia. discriminate. }
    destruct (Z.eqb_spec (builtin_ffs mask) 0); [lia |].
    exists i. split.
    + f_equal. apply wrap_small. change (2 ^ 32) with 4294967296. lia.
    + split; [exact Hi |]. split; [exact Hbit | exact Hlow].
Qed.

Lemma BitMaskScanForward_lowest_bit_witness :
  (40 = 0 -> BitMaskScanForward 40 = (false, 0)) /\
  (40 <> 0 ->
   exists i, BitMaskScanForward 40 = (true, i) /\ 0 <= i < 32 /\
             Z.testbit 40 i = true /\
             forall j, 0 <= j < i -> Z.testbit 40 j = false).
Proof.
  apply (BitMaskScanForward_lowest_bit 40). split; [lia | reflexivity].
Defined.

(** On a one-word 32-bit mask, scanned from [*pIndex = 0], the wide scan
    is the one-word scan. *)
Theorem WideBitMaskScanForward_one_word mask :
  0 <= mask < 2 ^ 32 ->
  WideBitMaskScanForward 32 [mask] 0 = Some (BitMaskScanForward mask).
Proof.
  intros Hm. unfold WideBitMaskScanForward, BitMaskScanForward.
  change (to_uint32 (0 / 32)) with 0.
  cbn [length first_nonzero_loop scan_loop Z.to_nat lookup list_lookup mbind option_bind].
  change (Z.to_nat 0) with 0%nat.
  cbn [lookup list_lookup mbind option_bind].
  destruct (Z.eqb_spec mask 0) as [-> | Hnz]; [reflexivity |].
  cbn [Z.of_nat]. change (0 <? Z.pos (Pos.of_succ_nat 0)) with true. cbv iota.
  destruct (Z.eqb_spec (builtin_ffs (to_uint32 mask)) 0) as [Hz | _].
  - exfalso. unfold to_uint32 in Hz. rewrite wrap_small in Hz by lia.
    destruct (builtin_ffs_spec mask ltac:(lia)) as (Hge & _). lia.
  - rewrite Z.mul_0_l, Z.add_0_r. reflexivity.
Qed.

Lemma WideBitMaskScanForward_one_word_witness :
  WideBitMaskScanForward 32 [40] 0 = Some (BitMaskScanForward 40).
Proof.
  apply (WideBitMaskScanForward_one_word 40). split; [lia | reflexivity].
Defined.

End SingleWordScan.

Section WideScanBehaviour.
Variable W : Z.
Variable mask : list Z.
Hypothesis W_range : 8 <= W <= 32.
Hypothesis mask_words : Forall (fun w => 0 <= w < 2 ^ W) mask.
Hypothesis mask_size : Z.of_nat (length mask) * W <= 2 ^ 32.

Lemma same_word_start p q :
  0 <= q -> q / W * W <= p < (q / W + 1) * W -> p / W = q / W.
Proof.
  intros Hq Hp. symmetry. apply (Z.div_unique p W (q / W) (p - q / W * W)); lia.
Qed.

(** The wide scan does not advance inside a word: when it has found bit
    [q], a call with [*pIndex] anywhere in the word of [q], also past
    [q], finds bit [q] again. *)
Theorem WideBitMaskScanForward_finds_same_bit p q p' :
  0 <= p < Z.of_nat (length mask) * W ->
  WideBitMaskScanForward W mask p = Some (true, q) ->
  q / W * W <= p' < (q / W + 1) * W ->
  WideBitMaskScanForward W mask p' = Some (true, q).
Proof.
  intros Hp Hrun Hp'.
  destruct (WideBitMaskScanForward_spec W mask W_range mask_words mask_size p Hp)
    as (found & q0 & Hrun0 & Hres).
  rewrite Hrun in Hrun0. injection Hrun0 as <- <-.
  destruct Hres as (Hq & Hbit & Hlow).
  assert (Hstart : 0 <= p / W * W) by (assert (0 <= p / W) by (apply Z.div_pos; lia); nia).
  assert (Hq0 : 0 <= q) by lia.
  assert (Hqw : 0 <= q / W) by (apply Z.div_pos; lia).
  assert (HqN : q / W < Z.of_nat (length mask)) by (apply Z.div_lt_upper_bound; lia).
  assert (Hword : p' / W = q / W) by (apply same_word_start; lia).
  assert (Hle : p / W <= q / W).
  { apply Z.div_le_lower_bound; lia. }
  pose proof (Z.div_mod q W ltac:(lia)) as Hqdm.
  pose proof (Z.mod_pos_bound q W ltac:(lia)) as Hqmb.
  assert (Hp'r : 0 <= p' < Z.of_nat (length mask) * W) by nia.
  destruct (WideBitMaskScanForward_spec W mask W_range mask_words mask_size p' Hp'r)
    as (found' & q' & Hrun' & Hres').
  rewrite Hrun'. rewrite Hword in Hres'.
  destruct found'.
  - destruct Hres' as (Hq' & Hbit' & Hlow'). do 2 f_equal.
    destruct (Z_lt_dec q q') as [Hlt | Hge].
    + rewrite (Hlow' q) in Hbit by nia. discriminate.
    + destruct (Z_lt_dec q' q) as [Hlt' | Hge']; [| lia].
      rewrite (Hlow q') in Hbit' by nia. discriminate.
  - rewrite (Hres' q) in Hbit by nia. discriminate.
Qed.

End WideScanBehaviour.

Section WideScanClaimsExtra.

Lemma WideBitMaskScanForward_finds_same_bit_witness :
  WideBitMaskScanForward 32 [0; 0; 192] 71 = Some (true, 70).
Proof.
  apply (WideBitMaskScanForward_finds_same_bit 32 [0; 0; 192]) with (p := 0) (q := 70).
  - lia.
  - repeat (apply List.Forall_cons; [split; [lia | reflexivity] |]).
    apply List.Forall_nil.
  - vm_compute. discriminate.
  - simpl. lia.
  - reflexivity.
  - vm_compute. split; [discriminate | reflexivity].
Defined.

Lemma first_nonzero_loop_zeros (n : nat) fuel :
  forall index,
    Z.of_nat n < 2 ^ 32 -> 0 <= index < Z.of_nat n -> Z.of_nat n - index <= Z.of_nat fuel ->
    first_nonzero_loop fuel (Z.of_nat n) (replicate n 0) index = Some (Z.of_nat n).
Proof.
  induction fuel as [| fuel IH]; intros index Hn Hi Hfuel; [lia |].
  cbn [first_nonzero_loop].
  rewrite (lookup_replicate_2 n 0 (Z.to_nat index)) by lia.
  cbn [mbind option_bind]. rewrite Z.eqb_refl.
  assert (Hnext : to_uint32 (index + 1) = index + 1)
    by (unfold to_uint32; apply wrap_small; lia).
  rewrite Hnext. destruct (Z.ltb_spec (index + 1) (Z.of_nat n)) as [Hlt | Hge].
  - apply IH; lia.
  - f_equal. lia.
Qed.

(** On a mask with no set bit the wide scan answers false and leaves
    [*pIndex] as it was, whatever it was. *)
Theorem WideBitMaskScanForward_empty_mask W (n : nat) pIndex :
  (0 < n)%nat -> Z.of_nat n < 2 ^ 32 ->
  WideBitMaskScanForward W (replicate n 0) pIndex = Some (false, pIndex).
Proof.
  intros Hn Hsize. unfold WideBitMaskScanForward.
  rewrite length_replicate.
  rewrite first_nonzero_loop_zeros by lia.
  cbn [mbind option_bind]. rewrite Z.ltb_irrefl. reflexivity.
Qed.

Lemma WideBitMaskScanForward_empty_mask_witness :
  WideBitMaskScanForward 32 (replicate 3 0) 200 = Some (false, 200).
Proof.
  apply (WideBitMaskScanForward_empty_mask 32 3 200); [lia | reflexivity].
Defined.

End WideScanClaimsExtra.

(** ** Halves of a 64-bit value, and dword counts *)

Section Halves.

(** [HighPart] and [LowPart] are the quotient and the remainder of a
    [uint64] by [2^32]: both are [uint32] and together they give the
    value back. *)
Theorem HighPart_LowPart_split value :
  0 <= value < 2 ^ 64 ->
  HighPart value = value / 2 ^ 32 /\ LowPart value = value mod 2 ^ 32 /\
  value = HighPart value * 2 ^ 32 + LowPart value.
Proof.
  intros Hv.
  assert (Hhigh : HighPart value = value / 2 ^ 32).
  { unfold HighPart. rewrite Z.shiftr_land.
    change (Z.shiftr 0xFFFFFFFF00000000 32) with (Z.ones 32).
    rewrite Z.land_ones, Z.shiftr_div_pow2 by lia.
    assert (0 <= value / 2 ^ 32 < 2 ^ 32).
    { split; [apply Z.div_pos; lia |].
      apply Z.div_lt_upper_bound; [lia |].
      change (2 ^ 32 * 2 ^ 32) with (2 ^ 64). lia. }
    rewrite Z.mod_small by lia. unfold to_uint32. apply wrap_small. lia. }
  assert (Hlow : LowPart value = value mod 2 ^ 32).
  { unfold LowPart. change 0x00000000FFFFFFFF with (Z.ones 32).
    rewrite Z.land_ones by lia. unfold to_uint32. apply wrap_small.
    apply Z.mod_pos_bound. lia. }
  split; [exact Hhigh |]. split; [exact Hlow |].
  rewrite Hhigh, Hlow. pose proof (Z.div_mod value (2 ^ 32) ltac:(lia)). lia.
Qed.

Lemma HighPart_LowPart_split_witness :
  HighPart 1311768467463790320 = 1311768467463790320 / 2 ^ 32 /\
  LowPart 1311768467463790320 = 1311768467463790320 mod 2 ^ 32 /\
  1311768467463790320
  = HighPart 1311768467463790320 * 2 ^ 32 + LowPart 1311768467463790320.
Proof.
  apply (HighPart_LowPart_split 1311768467463790320). split; [lia | reflexivity].
Defined.

(** [NumBytesToNumDwords] is the least number of dwords that cover
    [numBytes] as long as [numBytes + 3] is a [uint32]; for the last
    three values of [uint32] the sum wraps and the answer is 0 dwords. *)
Theorem NumBytesToNumDwords_cover numBytes :
  0 <= numBytes < 2 ^ 32 ->
  (numBytes + 3 < 2 ^ 32 ->
   4 * (NumBytesToNumDwords numBytes - 1) < numBytes <= 4 * NumBytesToNumDwords numBytes) /\
  (2 ^ 32 <= numBytes + 3 -> NumBytesToNumDwords numBytes = 0).
Proof.
  intros Hn.
  assert (Hval : NumBytesToNumDwords numBytes = wrap 32 (numBytes + 3) / 4).
  { unfold NumBytesToNumDwords. change 4 with (2 ^ 2) at 1.
    rewrite (Pow2Align_small_alignment 32 2 numBytes) by lia.
    change (2 ^ 2) with 4. replace (numBytes + 4 - 1) with (numBytes + 3) by lia.
    pose proof (wrap_range 32 (numBytes + 3) ltac:(lia)) as Hx.
    set (x := wrap 32 (numBytes + 3)) in *.
    rewrite (Z.mul_comm 4), Z.div_mul by lia.
    unfold to_uint32. apply wrap_small.
    split; [apply Z.div_pos; lia |]. apply Z.div_lt_upper_bound; lia. }
  rewrite Hval. change (2 ^ 32) with 4294967296 in *. split.
  - intros Hfit. rewrite wrap_small by (change (2 ^ 32) with 4294967296; lia).
    pose proof (Z.div_mod (numBytes + 3) 4 ltac:(lia)).
    pose proof (Z.mod_pos_bound (numBytes + 3) 4 ltac:(lia)). lia.
  - intros Hwrap. unfold wrap. change (2 ^ 32) with 4294967296.
    replace (numBytes + 3) with ((numBytes + 3 - 4294967296) + 1 * 4294967296) by lia.
    rewrite Z.mod_add by lia. rewrite Z.mod_small by lia.
    apply Z.div_small. lia.
Qed.

Lemma NumBytesToNumDwords_cover_witness :
  (4294967295 + 3 < 2 ^ 32 ->
   4 * (NumBytesToNumDwords 4294967295 - 1) < 4294967295
   <= 4 * NumBytesToNumDwords 4294967295) /\
  (2 ^ 32 <= 4294967295 + 3 -> NumBytesToNumDwords 4294967295 = 0).
Proof.
  apply (NumBytesToNumDwords_cover 4294967295). split; [lia | reflexivity].
Defined.

End Halves.

(** ** [HashString], continued *)

Section HashStringBehaviour.

Lemma HashString_fnv1a_nonnegative_chars_witness :
  HashString 3 [80; 65; 76] (Z.of_nat (length [80; 65; 76]))
  = Some (fnv1a_reference (map char_byte [80; 65; 76])).
Proof.
  apply (HashString_fnv1a_nonnegative_chars [80; 65; 76] 3).
  - repeat (apply List.Forall_cons; [lia |]). apply List.Forall_nil.
  - reflexivity.
  - simpl. lia.
Defined.






End HashStringBehaviour.

(** ** Wide bitfields, continued *)

Section NarrowBitfields.
Variable T : Target.
Variable k : Z.
Variable bitfield : list Z.
Hypothesis k_range : 0 <= k <= 5.
Hypothesis bitfield_size : Z.of_nat (length bitfield) * 2 ^ k <= 2 ^ 32.

Let W := 2 ^ k.

Lemma W_positive : 0 < W.
Proof. unfold W. apply Z.pow_pos_nonneg; lia. Qed.

Lemma bit_position b :
  0 <= b < Z.of_nat (length bitfield) * W ->
  word_index W b = b / W /\ bit_mask W b = 2 ^ (b mod W) /\
  0 <= b mod W < W /\ 0 <= b / W /\
  exists w, bitfield !! Z.to_nat (b / W) = Some w.
Proof.
  intros Hb. pose proof W_positive as HW.
  destruct (word_index_in_range W bitfield b HW) as [Hidx Hlt]; [unfold W in *; lia | lia |].
  split; [exact Hidx |]. split; [unfold W; apply bit_mask_narrow; lia |].
  split; [apply Z.mod_pos_bound; lia |]. split; [apply Z.div_pos; lia |].
  apply lookup_lt_is_Some_2. exact Hlt.
Qed.

Lemma same_bit_iff i j :
  0 <= i -> 0 <= j ->
  (i =? j) = (Z.to_nat (i / W) =? Z.to_nat (j / W))%nat && (i mod W =? j mod W).
Proof.
  intros Hi Hj. pose proof W_positive as HW.
  pose proof (Z.div_mod i W ltac:(lia)). pose proof (Z.div_mod j W ltac:(lia)).
  assert (0 <= i / W) by (apply Z.div_pos; lia).
  assert (0 <= j / W) by (apply Z.div_pos; lia).
  destruct (Z.eqb_spec i j) as [-> | Hne].
  - rewrite Nat.eqb_refl, Z.eqb_refl. reflexivity.
  - destruct (Nat.eqb_spec (Z.to_nat (i / W)) (Z.to_nat (j / W))) as [Hq | _];
      [| reflexivity].
    destruct (Z.eqb_spec (i mod W) (j mod W)) as [Hr | _]; [| reflexivity].
    assert (i / W = j / W) by lia. nia.
Qed.

Lemma land_pow2_testbit w r : 0 <= r -> (0 =? Z.land w (2 ^ r)) = negb (Z.testbit w r).
Proof.
  intros Hr. destruct (Z.testbit w r) eqn:Hbit; cbn [negb].
  - apply Z.eqb_neq. intros Hz.
    apply (f_equal (fun z => Z.testbit z r)) in Hz.
    rewrite Z.land_spec, Hbit, Z.pow2_bits_eqb, Z.eqb_refl, Z.bits_0 in Hz by lia.
    discriminate.
  - apply Z.eqb_eq. symmetry. apply Z.bits_inj'. intros n Hn.
    rewrite Z.land_spec, Z.pow2_bits_eqb, Z.bits_0 by lia.
    destruct (Z.eqb_spec r n) as [<- | _]; [rewrite Hbit | rewrite andb_false_r];
      reflexivity.
Qed.

(** For a word width of at most 32 bits, [WideBitfieldIsSet] reads bit
    [b mod W] of word [b / W]. *)
Theorem WideBitfieldIsSet_reads_bit b :
  0 <= b < Z.of_nat (length bitfield) * W ->
  WideBitfieldIsSet W bitfield b = Some (wide_testbit W bitfield b).
Proof.
  intros Hb. destruct (bit_position b Hb) as (Hidx & Hmask & Hr & Hq & w & Hw).
  unfold WideBitfieldIsSet, wide_testbit. rewrite Hidx, Hmask, Hw.
  cbn [mbind option_bind]. rewrite land_pow2_testbit by lia.
  rewrite negb_involutive. reflexivity.
Qed.

(** For a word width of at most 32 bits, [WideBitfieldSetBit] sets bit
    [i] and leaves every other bit of the bitfield as it was. *)
Theorem WideBitfieldSetBit_sets_one_bit i j :
  0 <= i < Z.of_nat (length bitfield) * W ->
  0 <= j < Z.of_nat (length bitfield) * W ->
  exists bitfield',
    WideBitfieldSetBit W bitfield i = Some bitfield' /\
    wide_testbit W bitfield' j = (i =? j) || wide_testbit W bitfield j.
Proof.
  intros Hi Hj.
  destruct (bit_position i Hi) as (Hidx & Hmask & Hr & Hq & w & Hw).
  destruct (bit_position j Hj) as (_ & _ & Hr' & Hq' & w' & Hw').
  unfold WideBitfieldSetBit. rewrite Hidx, Hmask, Hw. cbn [mbind option_bind].
  eexists. split; [reflexivity |].
  rewrite same_bit_iff by lia. unfold wide_testbit.
  destruct (Nat.eqb_spec (Z.to_nat (i / W)) (Z.to_nat (j / W))) as [Heq | Hne].
  - rewrite <- Heq, list_lookup_insert_eq by (eapply lookup_lt_Some; exact Hw).
    rewrite Hw. unfold wrap, W. rewrite Z.mod_pow2_bits_low by (fold W; lia). fold W.
    rewrite Z.lor_spec, Z.pow2_bits_eqb by lia.
    rewrite orb_comm. reflexivity.
  - rewrite list_lookup_insert_ne by exact Hne. reflexivity.
Qed.

(** For a word width of at most 32 bits, [WideBitfieldClearBit] clears
    bit [i] and leaves every other bit of the bitfield as it was. *)
Theorem WideBitfieldClearBit_clears_one_bit i j :
  0 <= i < Z.of_nat (length bitfield) * W ->
  0 <= j < Z.of_nat (length bitfield) * W ->
  exists bitfield',
    WideBitfieldClearBit W bitfield i = Some bitfield' /\
    wide_testbit W bitfield' j = negb (i =? j) && wide_testbit W bitfield j.
Proof.
  intros Hi Hj.
  destruct (bit_position i Hi) as (Hidx & Hmask & Hr & Hq & w & Hw).
  destruct (bit_position j Hj) as (_ & _ & Hr' & Hq' & w' & Hw').
  unfold WideBitfieldClearBit. rewrite Hidx, Hmask, Hw. cbn [mbind option_bind].
  eexists. split; [reflexivity |].
  rewrite same_bit_iff by lia. unfold wide_testbit.
  assert (HW32 : W <= 32).
  { unfold W. change 32 with (2 ^ 5). apply Z.pow_le_mono_r; lia. }
  destruct (Nat.eqb_spec (Z.to_nat (i / W)) (Z.to_nat (j / W))) as [Heq | Hne].
  - rewrite <- Heq, list_lookup_insert_eq by (eapply lookup_lt_Some; exact Hw).
    rewrite Hw. unfold wrap at 1, W at 2.
    rewrite Z.mod_pow2_bits_low by (fold W; lia).
    rewrite Z.land_spec. unfold to_uint32, wrap.
    rewrite Z.mod_pow2_bits_low by lia.
    rewrite Z.lnot_spec, Z.pow2_bits_eqb by lia.
    rewrite andb_comm. reflexivity.
  - rewrite list_lookup_insert_ne by exact Hne. reflexivity.
Qed.

End NarrowBitfields.

Section BitfieldWitnesses.

Lemma WideBitfieldIsSet_reads_bit_witness :
  @WideBitfieldIsSet x86_target (2 ^ 5) [5; 0; 64] 70
  = Some (wide_testbit (2 ^ 5) [5; 0; 64] 70).
Proof.
  apply (WideBitfieldIsSet_reads_bit x86_target 5 [5; 0; 64]).
  - lia.
  - vm_compute. discriminate.
  - simpl. lia.
Defined.

Lemma WideBitfieldSetBit_sets_one_bit_witness :
  exists bitfield',
    @WideBitfieldSetBit x86_target (2 ^ 5) [5; 0; 64] 33 = Some bitfield' /\
    wide_testbit (2 ^ 5) bitfield' 70 = (33 =? 70) || wide_testbit (2 ^ 5) [5; 0; 64] 70.
Proof.
  apply (WideBitfieldSetBit_sets_one_bit x86_target 5 [5; 0; 64]).
  - lia.
  - vm_compute. discriminate.
  - simpl. lia.
  - simpl. lia.
Defined.

Lemma WideBitfieldClearBit_clears_one_bit_witness :
  exists bitfield',
    @WideBitfieldClearBit x86_target (2 ^ 5) [5; 0; 64] 70 = Some bitfield' /\
    wide_testbit (2 ^ 5) bitfield' 2
    = negb (70 =? 2) && wide_testbit (2 ^ 5) [5; 0; 64] 2.
Proof.
  apply (WideBitfieldClearBit_clears_one_bit x86_target 5 [5; 0; 64]).
  - lia.
  - vm_compute. discriminate.
  - simpl. lia.
  - simpl. lia.
Defined.

Lemma WideBitfield_round_trip_narrow_witness :
  exists bitfield',
    @WideBitfieldSetBit x86_target (2 ^ 5) (replicate 3 0) 70 = Some bitfield' /\
    @WideBitfieldIsSet x86_target (2 ^ 5) bitfield' 71 = Some (70 =? 71).
Proof.
  apply (WideBitfield_round_trip_narrow x86_target 5 3 70 71).
  - lia.
  - vm_compute. discriminate.
  - simpl. lia.
  - simpl. lia.
Defined.

End BitfieldWitnesses.

Section WideWordsClear.

(** On 64-bit words [WideBitfieldClearBit] clears more than one bit: the
    complement of the mask is a [uint32], so on every target and for
    every bit index the upper 32 bits of the word that holds the bit are
    all cleared. *)
Theorem WideBitfieldClearBit_uint64_clears_high_half (T : Target) bitfield b j :
  0 <= b < 2 ^ 32 -> b < Z.of_nat (length bitfield) * 64 ->
  0 <= j -> j / 64 = b / 64 -> 32 <= j mod 64 ->
  exists bitfield',
    WideBitfieldClearBit 64 bitfield b = Some bitfield' /\
    wide_testbit 64 bitfield' j = false.
Proof.
  intros Hb Hin Hj Hword Hhigh.
  destruct (word_index_in_range 64 bitfield b ltac:(lia) Hb Hin) as [Hidx Hlt].
  destruct (lookup_lt_is_Some_2 bitfield _ Hlt) as [w Hw].
  unfold WideBitfieldClearBit. rewrite Hidx, Hw. cbn [mbind option_bind].
  eexists. split; [reflexivity |].
  unfold wide_testbit. rewrite Hword.
  rewrite list_lookup_insert_eq by exact Hlt.
  pose proof (Z.mod_pos_bound j 64 ltac:(lia)) as Hr.
  unfold wrap at 1. rewrite Z.mod_pow2_bits_low by lia.
  rewrite Z.land_spec.
  rewrite (testbit_above 32 (to_uint32 _) (j mod 64)); [apply andb_false_r | | lia].
  unfold to_uint32. apply wrap_range. lia.
Qed.

Lemma WideBitfieldClearBit_uint64_clears_high_half_witness :
  exists bitfield',
    @WideBitfieldClearBit x86_target 64 [1099511627777] 0 = Some bitfield' /\
    wide_testbit 64 bitfield' 40 = false.
Proof.
  apply (WideBitfieldClearBit_uint64_clears_high_half x86_target [1099511627777] 0 40).
  - split; [lia | reflexivity].
  - simpl. lia.
  - lia.
  - reflexivity.
  - vm_compute. discriminate.
Defined.

End WideWordsClear.

(** ** Combining wide bitfields *)

Section CombineLoop.
Variable op : Z -> Z -> Z.
Variable W : Z.
Variable N : nat.
Variables bitfield1 bitfield2 pOut : nat.
Variable m : gmap nat (list Z).
Variables l1 l2 lout : list Z.
Hypothesis in1 : m !! bitfield1 = Some l1.
Hypothesis in2 : m !! bitfield2 = Some l2.
Hypothesis out : m !! pOut = Some lout.
Hypothesis len1 : length l1 = N.
Hypothesis len2 : length l2 = N.
Hypothesis lenout : (N <= length lout)%nat.
Hypothesis N_small : Z.of_nat N < 2 ^ 32.

Let res := zip_with (fun x y => wrap W (op x y)) l1 l2.
Let cur (i : nat) := take i res ++ drop i lout.

Lemma length_res : length res = N.
Proof. unfold res. rewrite length_zip_with. lia. Qed.

Lemma cur_lookup_rest i j : (i <= N)%nat -> (i <= j)%nat -> cur i !! j = lout !! j.
Proof.
  intros Hi Hj. unfold cur.
  rewrite lookup_app_r by (rewrite length_take, length_res; lia).
  rewrite length_take, length_res, lookup_drop.
  f_equal. lia.
Qed.

Lemma length_cur i : (i <= N)%nat -> length (cur i) = length lout.
Proof.
  intros Hi. unfold cur. rewrite length_app, length_take, length_drop, length_res. lia.
Qed.

(** What a read of either input sees while the output is being written:
    the original word, also when the input is the output array. *)
Lemma read_input (a : nat) (la : list Z) i :
  m !! a = Some la -> length la = N -> (i < N)%nat ->
  exists x, la !! i = Some x /\
    (<[pOut := cur i]> m !! a) ≫= (fun l => l !! i) = Some x.
Proof.
  intros Ha Hlen Hi.
  destruct (lookup_lt_is_Some_2 la i ltac:(lia)) as [x Hx].
  exists x. split; [exact Hx |].
  destruct (Nat.eq_dec a pOut) as [-> | Hne].
  - rewrite lookup_insert_eq. cbn [mbind option_bind].
    rewrite cur_lookup_rest by lia.
    rewrite out in Ha. injection Ha as ->. exact Hx.
  - rewrite lookup_insert_ne by congruence. rewrite Ha. exact Hx.
Qed.

Lemma cur_step i x y :
  (i < N)%nat -> l1 !! i = Some x -> l2 !! i = Some y ->
  <[i := wrap W (op x y)]> (cur i) = cur (S i).
Proof.
  intros Hi Hx Hy.
  assert (Hres : res !! i = Some (wrap W (op x y))).
  { unfold res. rewrite lookup_zip_with, Hx, Hy. reflexivity. }
  destruct (lookup_lt_is_Some_2 lout i ltac:(lia)) as [z Hz].
  unfold cur. rewrite (take_S_r _ _ _ Hres), (drop_S _ _ _ Hz).
  rewrite insert_app_r_alt by (rewrite length_take, length_res; lia).
  rewrite length_take, length_res.
  replace (i - i `min` N)%nat with 0%nat by lia.
  cbn [insert list_insert]. rewrite <- app_assoc. reflexivity.
Qed.

Lemma wide_combine_loop_from fuel :
  forall i : nat,
    (i <= N)%nat -> (N - i <= fuel)%nat ->
    wide_combine_loop fuel op W (Z.of_nat N) bitfield1 bitfield2 pOut (Z.of_nat i)
                      (<[pOut := cur i]> m)
    = Some (<[pOut := cur N]> m).
Proof.
  induction fuel as [| fuel IH]; intros i Hi Hfuel.
  - assert (i = N) by lia. subst i. cbn [wide_combine_loop].
    rewrite Z.ltb_irrefl. reflexivity.
  - cbn [wide_combine_loop].
    destruct (Z.ltb_spec (Z.of_nat i) (Z.of_nat N)) as [Hlt | Hge].
    + assert (Hi' : (i < N)%nat) by lia.
      destruct (read_input bitfield1 l1 i in1 len1 Hi') as (x & Hx & Hread1).
      destruct (read_input bitfield2 l2 i in2 len2 Hi') as (y & Hy & Hread2).
      unfold wide_combine_step. rewrite Nat2Z.id.
      destruct (<[pOut := cur i]> m !! bitfield1) as [a |] eqn:Ha; [| discriminate].
      cbn [mbind option_bind] in Hread1 |- *. rewrite Hread1. cbn [mbind option_bind].
      destruct (<[pOut := cur i]> m !! bitfield2) as [b |] eqn:Hb; [| discriminate].
      cbn [mbind option_bind] in Hread2 |- *. rewrite Hread2. cbn [mbind option_bind].
      rewrite lookup_insert_eq. cbn [mbind option_bind].
      rewrite length_cur by lia.
      destruct (Nat.ltb_spec i (length lout)); [| lia].
      cbn [mbind option_bind].
      rewrite insert_insert_eq, (cur_step i x y Hi' Hx Hy).
      assert (Hnext : to_uint32 (Z.of_nat i + 1) = Z.of_nat (S i)).
      { unfold to_uint32. rewrite wrap_small; lia. }
      rewrite Hnext. apply IH; lia.
    + assert (i = N) by lia. subst i. reflexivity.
Qed.

(** The loop writes the word-wise combination of the two inputs over
    the first [N] words of the output and nothing else. *)
Lemma wide_combine_loop_spec fuel :
  (N <= fuel)%nat ->
  wide_combine_loop fuel op W (Z.of_nat N) bitfield1 bitfield2 pOut 0 m
  = Some (<[pOut := res ++ drop N lout]> m).
Proof.
  intros Hfuel.
  pose proof (wide_combine_loop_from fuel 0 ltac:(lia) ltac:(lia)) as Hrun.
  assert (Hstart : <[pOut := cur 0]> m = m).
  { apply insert_id. unfold cur. rewrite take_0, drop_0. exact out. }
  assert (Hend : cur N = res ++ drop N lout).
  { unfold cur. rewrite take_ge by (rewrite length_res; lia). reflexivity. }
  rewrite Hstart, Hend in Hrun. exact Hrun.
Qed.

End CombineLoop.

Section CombineProperties.

(** [WideBitfieldXorBits] and [WideBitfieldAndBits] write the word-wise
    XOR, respectively AND, of the two inputs over the first [N] words of
    [pOut] and change nothing else, also when [pOut] is one of the
    inputs. *)
Theorem WideBitfield_combine_word_wise W (N : nat) bitfield1 bitfield2 pOut
    (m : gmap nat (list Z)) l1 l2 lout fuel :
  m !! bitfield1 = Some l1 -> m !! bitfield2 = Some l2 -> m !! pOut = Some lout ->
  length l1 = N -> length l2 = N -> (N <= length lout)%nat ->
  Z.of_nat N < 2 ^ 32 -> (N <= fuel)%nat ->
  WideBitfieldXorBits fuel W (Z.of_nat N) bitfield1 bitfield2 pOut m
  = Some (<[pOut := zip_with (fun x y => wrap W (Z.lxor x y)) l1 l2 ++ drop N lout]> m) /\
  WideBitfieldAndBits fuel W (Z.of_nat N) bitfield1 bitfield2 pOut m
  = Some (<[pOut := zip_with (fun x y => wrap W (Z.land x y)) l1 l2 ++ drop N lout]> m).
Proof.
  intros H1 H2 Hout Hl1 Hl2 Hlout HN Hfuel.
  split; [unfold WideBitfieldXorBits | unfold WideBitfieldAndBits];
    apply (wide_combine_loop_spec _ W N bitfield1 bitfield2 pOut m l1 l2 lout);
    assumption.
Qed.

Lemma WideBitfield_combine_word_wise_witness :
  WideBitfieldXorBits 3 32 (Z.of_nat 3) 0 1 0 {[ 0%nat := [1; 2; 3]; 1%nat := [3; 3; 3] ]}
  = Some (<[0%nat := zip_with (fun x y => wrap 32 (Z.lxor x y)) [1; 2; 3] [3; 3; 3]
                     ++ drop 3 [1; 2; 3]]>
            {[ 0%nat := [1; 2; 3]; 1%nat := [3; 3; 3] ]}) /\
  WideBitfieldAndBits 3 32 (Z.of_nat 3) 0 1 0 {[ 0%nat := [1; 2; 3]; 1%nat := [3; 3; 3] ]}
  = Some (<[0%nat := zip_with (fun x y => wrap 32 (Z.land x y)) [1; 2; 3] [3; 3; 3]
                     ++ drop 3 [1; 2; 3]]>
            {[ 0%nat := [1; 2; 3]; 1%nat := [3; 3; 3] ]}).
Proof.
  apply (WideBitfield_combine_word_wise 32 3 0 1 0
           {[ 0%nat := [1; 2; 3]; 1%nat := [3; 3; 3] ]} [1; 2; 3] [3; 3; 3] [1; 2; 3] 3).
  - reflexivity.
  - reflexivity.
  - reflexivity.
  - reflexivity.
  - reflexivity.
  - simpl. lia.
  - reflexivity.
  - lia.
Defined.

Lemma lxor_word W x y :
  0 <= W -> 0 <= x < 2 ^ W -> 0 <= y < 2 ^ W -> wrap W (Z.lxor x y) = Z.lxor x y.
Proof.
  intros HW Hx Hy. unfold wrap. apply Z.bits_inj'. intros n Hn.
  destruct (Z_lt_dec n W) as [Hlow | Hhigh].
  - apply Z.mod_pow2_bits_low. lia.
  - rewrite Z.mod_pow2_bits_high by lia.
    rewrite Z.lxor_spec, (testbit_above W x n), (testbit_above W y n) by lia.
    reflexivity.
Qed.

(** XOR of a bitfield with itself, into any output, also into itself,
    leaves the first [N] words of the output all zero. *)
Theorem WideBitfieldXorBits_self_is_zero W (N : nat) bitfield pOut
    (m : gmap nat (list Z)) l lout fuel :
  0 <= W ->
  m !! bitfield = Some l -> m !! pOut = Some lout ->
  length l = N -> (N <= length lout)%nat ->
  Z.of_nat N < 2 ^ 32 -> (N <= fuel)%nat ->
  WideBitfieldXorBits fuel W (Z.of_nat N) bitfield bitfield pOut m
  = Some (<[pOut := replicate N 0 ++ drop N lout]> m).
Proof.
  intros HW Hin Hout Hl Hlout HN Hfuel.
  unfold WideBitfieldXorBits.
  rewrite (wide_combine_loop_spec _ W N bitfield bitfield pOut m l l lout) by assumption.
  do 3 f_equal. subst N. clear. induction l as [| x l IH]; [reflexivity |].
  cbn [zip_with length replicate]. rewrite IH, Z.lxor_nilpotent.
  unfold wrap. rewrite Zmod_0_l. reflexivity.
Qed.

Lemma WideBitfieldXorBits_self_is_zero_witness :
  WideBitfieldXorBits 3 32 (Z.of_nat 3) 0 0 0 {[ 0%nat := [1; 2; 3] ]}
  = Some (<[0%nat := replicate 3 0 ++ drop 3 [1; 2; 3]]> {[ 0%nat := [1; 2; 3] ]}).
Proof.
  apply (WideBitfieldXorBits_self_is_zero 32 3 0 0 {[ 0%nat := [1; 2; 3] ]}
           [1; 2; 3] [1; 2; 3] 3).
  - lia.
  - reflexivity.
  - reflexivity.
  - reflexivity.
  - simpl. lia.
  - reflexivity.
  - lia.
Defined.

(** XOR in place is an involution: XOR-ing a second bitfield into a
    bitfield twice gives the store back as it was. *)
Theorem WideBitfieldXorBits_in_place_twice W (N : nat) bitfield1 bitfield2
    (m : gmap nat (list Z)) l1 l2 fuel :
  0 <= W -> bitfield1 <> bitfield2 ->
  m !! bitfield1 = Some l1 -> m !! bitfield2 = Some l2 ->
  length l1 = N -> length l2 = N ->
  Forall (fun w => 0 <= w < 2 ^ W) l1 -> Forall (fun w => 0 <= w < 2 ^ W) l2 ->
  Z.of_nat N < 2 ^ 32 -> (N <= fuel)%nat ->
  WideBitfieldXorBits fuel W (Z.of_nat N) bitfield1 bitfield2 bitfield1 m
    ≫= WideBitfieldXorBits fuel W (Z.of_nat N) bitfield1 bitfield2 bitfield1
  = Some m.
Proof.
  intros HW Hne H1 H2 Hl1 Hl2 Hw1 Hw2 HN Hfuel.
  unfold WideBitfieldXorBits.
  rewrite (wide_combine_loop_spec _ W N bitfield1 bitfield2 bitfield1 m l1 l2 l1)
    by (assumption || lia).
  cbn [mbind option_bind].
  rewrite drop_ge, app_nil_r by lia.
  set (res := zip_with (fun x y => wrap W (Z.lxor x y)) l1 l2).
  assert (Hlres : length res = N) by (unfold res; rewrite length_zip_with; lia).
  rewrite (wide_combine_loop_spec _ W N bitfield1 bitfield2 bitfield1
             (<[bitfield1 := res]> m) res l2 res);
    try (assumption || lia).
  2: apply lookup_insert_eq.
  2: rewrite lookup_insert_ne by congruence; exact H2.
  2: apply lookup_insert_eq.
  rewrite drop_ge, app_nil_r by lia. rewrite insert_insert_eq.
  f_equal. apply insert_id. rewrite H1. f_equal.
  unfold res. clear res Hlres H1 H2 HN Hfuel Hne. subst N.
  revert l2 Hl2 Hw2. induction Hw1 as [| x l1 Hx _ IH]; intros l2 Hl2 Hw2.
  - destruct l2; reflexivity.
  - destruct l2 as [| y l2]; [discriminate |].
    apply Forall_cons in Hw2 as [Hy Hw2]. cbn [zip_with].
    rewrite <- (IH l2) by (simpl in Hl2; (lia || assumption)). f_equal.
    rewrite (lxor_word W x y) by assumption.
    rewrite Z.lxor_assoc, Z.lxor_nilpotent, Z.lxor_0_r.
    symmetry. apply wrap_small. exact Hx.
Qed.

Lemma WideBitfieldXorBits_in_place_twice_witness :
  WideBitfieldXorBits 3 32 (Z.of_nat 3) 0 1 0 {[ 0%nat := [1; 2; 3]; 1%nat := [7; 7; 7] ]}
    ≫= WideBitfieldXorBits 3 32 (Z.of_nat 3) 0 1 0
  = Some {[ 0%nat := [1; 2; 3]; 1%nat := [7; 7; 7] ]}.
Proof.
  apply (WideBitfieldXorBits_in_place_twice 32 3 0 1
           {[ 0%nat := [1; 2; 3]; 1%nat := [7; 7; 7] ]} [1; 2; 3] [7; 7; 7] 3).
  - lia.
  - lia.
  - reflexivity.
  - reflexivity.
  - reflexivity.
  - reflexivity.
  - repeat (apply List.Forall_cons; [split; [lia | reflexivity] |]).
    apply List.Forall_nil.
  - repeat (apply List.Forall_cons; [split; [lia | reflexivity] |]).
    apply List.Forall_nil.
  - reflexivity.
  - lia.
Defined.

End CombineProperties.

(** ** [CountSetBits], continued *)

Section PopulationCount.

Lemma CountSetBits_eq_naive x : 0 <= x < 2 ^ 32 -> CountSetBits x = naive_popcount x.
Proof.
  intros Hx.
  destruct (word_bytes x Hx) as (b0 & b1 & b2 & b3 & H0 & H1 & H2 & H3 & ->).
  rewrite CountSetBits_pack, naive_popcount_pack by assumption. reflexivity.
Qed.

Lemma uint32_of_bits z :
  0 <= z -> (forall n, 32 <= n -> Z.testbit z n = false) -> z < 2 ^ 32.
Proof.
  intros Hz Hhigh. destruct (Z_lt_dec z (2 ^ 32)) as [| Hbig]; [assumption | exfalso].
  assert (Hlog : 32 <= Z.log2 z) by (apply Z.log2_le_pow2; lia).
  specialize (Hhigh (Z.log2 z) Hlog).
  rewrite Z.bit_log2 in Hhigh by lia. discriminate.
Qed.

Lemma naive_popcount_upto_zero n x :
  naive_popcount_upto n x = 0 <->
  forall j, (j < n)%nat -> Z.testbit x (Z.of_nat j) = false.
Proof.
  induction n as [| n IH]; cbn [naive_popcount_upto].
  - split; [intros _ j Hj; lia | reflexivity].
  - pose proof (naive_popcount_upto_range n x) as Hr. split.
    + intros Hsum j Hj.
      destruct (Z.testbit x (Z.of_nat n)) eqn:Hbit; cbn [Z.b2z] in Hsum; [lia |].
      destruct (Nat.eq_dec j n) as [-> | Hne]; [exact Hbit |].
      apply IH; lia.
    + intros Hall. rewrite (Hall n) by lia. cbn [Z.b2z].
      rewrite (proj2 IH); [lia |]. intros j Hj. apply Hall. lia.
Qed.

Lemma naive_popcount_upto_one n x :
  naive_popcount_upto n x = 1 ->
  exists k, (k < n)%nat /\ Z.testbit x (Z.of_nat k) = true /\
            forall j, (j < n)%nat -> j <> k -> Z.testbit x (Z.of_nat j) = false.
Proof.
  induction n as [| n IH]; cbn [naive_popcount_upto]; [lia |].
  intros Hsum. destruct (Z.testbit x (Z.of_nat n)) eqn:Hbit; cbn [Z.b2z] in Hsum.
  - exists n. split; [lia |]. split; [exact Hbit |].
    intros j Hj Hne. apply (proj1 (naive_popcount_upto_zero n x)); lia.
  - destruct IH as (k & Hk & Hset & Hrest); [lia |].
    exists k. split; [lia |]. split; [exact Hset |].
    intros j Hj Hne. destruct (Nat.eq_dec j n) as [-> | Hjn]; [exact Hbit |].
    apply Hrest; lia.
Qed.

Lemma CountSetBits_pow2 k : 0 <= k < 32 -> CountSetBits (2 ^ k) = 1.
Proof.
  intros Hk.
  assert (Hall : forallb (fun i => CountSetBits (2 ^ i) =? 1) (map Z.of_nat (seq 0 32)) = true)
    by (vm_compute; reflexivity).
  apply Z.eqb_eq. apply (proj1 (forallb_forall _ _) Hall).
  apply in_map_iff. exists (Z.to_nat k). split; [lia |]. apply in_seq. lia.
Qed.

(** [CountSetBits] of a [uint32] lies between 0 and 32, and is 0 only
    for 0. *)
Theorem CountSetBits_range x :
  0 <= x < 2 ^ 32 ->
  0 <= CountSetBits x <= 32 /\ (CountSetBits x = 0 <-> x = 0).
Proof.
  intros Hx. rewrite CountSetBits_eq_naive by exact Hx. unfold naive_popcount.
  split; [apply (naive_popcount_upto_range 32) |]. split.
  - intros Hzero. apply Z.bits_inj_0. intros n.
    destruct (Z_lt_dec n 0); [apply Z.testbit_neg_r; lia |].
    destruct (Z_lt_dec n 32).
    + replace n with (Z.of_nat (Z.to_nat n)) by lia.
      apply (proj1 (naive_popcount_upto_zero 32 x) Hzero). lia.
    + apply (testbit_above 32); lia.
  - intros ->. reflexivity.
Qed.

Lemma CountSetBits_range_witness :
  0 <= CountSetBits 4042322160 <= 32 /\ (CountSetBits 4042322160 = 0 <-> 4042322160 = 0).
Proof. apply (CountSetBits_range 4042322160). split; [lia | reflexivity]. Defined.

(** A [uint32] has exactly one set bit, by [CountSetBits], exactly when
    [IsPowerOfTwo] says it is a power of two. *)
Theorem CountSetBits_one_iff_IsPowerOfTwo x :
  0 <= x < 2 ^ 32 -> (CountSetBits x = 1 <-> IsPowerOfTwo x = true).
Proof.
  intros Hx.
  assert (Hx64 : 0 <= x < 2 ^ 64).
  { assert (2 ^ 32 < 2 ^ 64) by reflexivity. lia. }
  split.
  - rewrite CountSetBits_eq_naive by exact Hx. unfold naive_popcount. intros Hone.
    destruct (naive_popcount_upto_one 32 x Hone) as (k & Hk & Hset & Hrest).
    assert (Hpow : x = 2 ^ Z.of_nat k).
    { apply Z.bits_inj'. intros n Hn. rewrite Z.pow2_bits_eqb by lia.
      destruct (Z.eqb_spec (Z.of_nat k) n) as [<- | Hne]; [exact Hset |].
      destruct (Z_lt_dec n 32).
      - replace n with (Z.of_nat (Z.to_nat n)) by lia. apply Hrest; lia.
      - apply (testbit_above 32); lia. }
    rewrite Hpow. apply IsPowerOfTwo_complete. lia.
  - intros Hp. destruct (IsPowerOfTwo_sound x Hx64 Hp) as (k & Hk & ->).
    apply CountSetBits_pow2. split; [lia |].
    apply (Z.pow_lt_mono_r_iff 2); lia.
Qed.

Lemma CountSetBits_one_iff_IsPowerOfTwo_witness :
  CountSetBits 65536 = 1 <-> IsPowerOfTwo 65536 = true.
Proof. apply (CountSetBits_one_iff_IsPowerOfTwo 65536). split; [lia | reflexivity]. Defined.

Lemma naive_popcount_upto_lor_land n a b :
  naive_popcount_upto n (Z.lor a b) + naive_popcount_upto n (Z.land a b)
  = naive_popcount_upto n a + naive_popcount_upto n b.
Proof.
  induction n as [| n IH]; cbn [naive_popcount_upto]; [reflexivity |].
  rewrite Z.lor_spec, Z.land_spec.
  destruct (Z.testbit a (Z.of_nat n)), (Z.testbit b (Z.of_nat n)); cbn [orb andb Z.b2z]; lia.
Qed.

(** The set bits of two [uint32] patterns are counted once in their OR
    and a second time, where shared, in their AND. *)
Theorem CountSetBits_lor_land a b :
  0 <= a < 2 ^ 32 -> 0 <= b < 2 ^ 32 ->
  CountSetBits (Z.lor a b) + CountSetBits (Z.land a b) = CountSetBits a + CountSetBits b.
Proof.
  intros Ha Hb.
  assert (Hor : 0 <= Z.lor a b < 2 ^ 32).
  { split; [apply Z.lor_nonneg; lia |]. apply uint32_of_bits; [apply Z.lor_nonneg; lia |].
    intros n Hn. rewrite Z.lor_spec, (testbit_above 32 a), (testbit_above 32 b) by lia.
    reflexivity. }
  assert (Hand : 0 <= Z.land a b < 2 ^ 32).
  { split; [apply Z.land_nonneg; lia |]. apply uint32_of_bits; [apply Z.land_nonneg; lia |].
    intros n Hn. rewrite Z.land_spec, (testbit_above 32 a) by lia. reflexivity. }
  rewrite !CountSetBits_eq_naive by assumption.
  apply naive_popcount_upto_lor_land.
Qed.

Lemma CountSetBits_lor_land_witness :
  CountSetBits (Z.lor 255 4080) + CountSetBits (Z.land 255 4080)
  = CountSetBits 255 + CountSetBits 4080.
Proof.
  apply (CountSetBits_lor_land 255 4080); (split; [lia | reflexivity]).
Defined.

End PopulationCount.

(** ** Pointer alignment *)

Section PointerAlignment.

(** [VoidPtrAlign] on an address is [Pow2Align] on a value of the
    pointer width: the two roundings are the same computation. *)
Theorem VoidPtrAlign_is_Pow2Align P ptr alignment :
  0 < P -> 0 <= alignment < 2 ^ P ->
  VoidPtrAlign P ptr alignment = Pow2Align P ptr alignment.
Proof.
  intros HP Ha. unfold VoidPtrAlign, Pow2Align.
  rewrite (wrap_small P alignment) by exact Ha. f_equal.
  unfold wrap. rewrite Zplus_mod_idemp_r, Zminus_mod_idemp_l. f_equal. lia.
Qed.

Lemma VoidPtrAlign_is_Pow2Align_witness :
  VoidPtrAlign 64 4097 4096 = Pow2Align 64 4097 4096.
Proof.
  apply (VoidPtrAlign_is_Pow2Align 64 4097 4096); [lia |].
  split; [lia | reflexivity].
Defined.

End PointerAlignment.
